(** * strand: random byte strings drawn from a caller-supplied charset

    A shallow embedding of the Go package [strand] (files [strand.go] and
    [seeded.go]) together with the properties of its two generators and of
    their wrappers.

    Go values are modelled as follows.
    - [int], [int64], [uint64]: [Z]; the conversions that wrap ([byte(..)],
      [uint64(..)]) are written out with [mod].
    - [byte]: [Byte.byte]; a [string] is the list of its bytes.
    - [[]byte]: [byte_slice], which keeps Go's [nil] apart from an empty,
      non-nil slice.
    - [error]: the inductive [error]; [fmt.Errorf] with [%w] is a wrapping
      constructor and [errors.Is] walks the wrapped errors.
    - a call that panics ends in [Panics]; a call that returns ends in
      [Returns].
    - the entropy source, the wall clock and the order in which the package
      touches them live in a [World] that every call threads through.

    The functions of [strand.go] and [seeded.go] are first given with a
    [make([]byte, size)] that yields [size] zero bytes for every positive
    [size].  Module [alloc] then gives the seeded generator once more with the
    check the runtime makes in [make]: beyond the length it can allocate,
    [make] panics and the call does not return. *)

From Stdlib Require Import ZArith List Bool Lia.
From Stdlib Require Import Strings.String Strings.Byte.
Import ListNotations.

Open Scope Z_scope.

(* ================================================================= *)
(** ** Go values *)

(** A Go [string]: an immutable sequence of bytes. *)
Definition gostring : Type := list byte.

Definition str (s : string) : gostring := list_byte_of_string s.

(** [len] of a Go string, as an [int]. *)
Definition len (s : gostring) : Z := Z.of_nat (List.length s).

(** A Go [[]byte]. *)
Inductive byte_slice : Type :=
| nil_slice
| slice_of (data : list byte).

(** The conversion [string(b)]; [string(nil)] is the empty string. *)
Definition string_of_slice (b : byte_slice) : gostring :=
  match b with
  | nil_slice => []
  | slice_of d => d
  end.

(** The numeric value of a byte, and the conversion [byte(n)] of an [int],
    which keeps the low eight bits. *)
Definition byte_val (b : byte) : Z := Z.of_N (Byte.to_N b).

Definition to_uint8 (n : Z) : Z := n mod 256.

(** The conversion [uint64(n)] of an [int64]. *)
Definition to_uint64 (n : Z) : Z := n mod 2 ^ 64.

(** [make([]byte, size)] for a positive [size]. *)
Definition make (size : Z) : list byte := repeat x00 (Z.to_nat size).

(* ================================================================= *)
(** ** Errors *)

Inductive error : Type :=
(* strand.go: var ( ... ) *)
| ErrInvalidSize
| ErrEmptyCharset
| ErrRandomFailure
(* package context *)
| Canceled
| DeadlineExceeded
(* what the entropy source reports when it cannot fill the buffer *)
| ErrEntropyUnavailable
(* fmt.Errorf("<prefix>: %w", e) *)
| Errorf_w (prefix : string) (e : error)
(* fmt.Errorf("%w: %w", e1, e2) *)
| Errorf_w_w (e1 e2 : error).

Definition error_eq_dec (a b : error) : {a = b} + {a <> b}.
Proof. decide equality. apply string_dec. Defined.

Module errors.

(** [errors.Is]: [err] or one of the errors it wraps is [target]. *)
Fixpoint Is (err target : error) : bool :=
  (if error_eq_dec err target then true else false)
  || match err with
     | Errorf_w _ e => Is e target
     | Errorf_w_w e1 e2 => Is e1 target || Is e2 target
     | _ => false
     end.

End errors.

(* ================================================================= *)
(** ** Panics and results *)

Inductive panic : Type :=
| PanicError (e : error)        (* panic(err) *)
| DivideByZero                  (* runtime error: integer divide by zero *)
| IndexOutOfRange               (* runtime error: index out of range *)
| InvalidArgumentToIntN         (* math/rand/v2: invalid argument to IntN *)
| MakeFailed.                   (* runtime error: makeslice: len out of range *)

Inductive outcome (A : Type) : Type :=
| Returns (a : A)
| Panics (p : panic).

Arguments Returns {A} a.
Arguments Panics {A} p.

(* ================================================================= *)
(** ** The world a call runs in *)

(** What a call did to its collaborators, oldest event first. *)
Inductive event : Type :=
| EntropyRead (n : nat)         (* crypto/rand.Read on a buffer of n bytes *)
| ClockRead                     (* time.Now() *)
| RngSeeded (seed1 seed2 : Z)   (* rand.New(rand.NewPCG(seed1, seed2)) *)
| RngDraw (n : Z).              (* rng.IntN(n) *)

Record World : Type := mkWorld {
  clock : Z;                    (* time.Now().UnixNano() *)
  entropy : list byte;          (* the bytes the secure source can still deliver *)
  trace : list event
}.

Definition Go (A : Type) : Type := World -> outcome A * World.

Definition ret {A} (a : A) : Go A := fun w => (Returns a, w).

Definition raise {A} (p : panic) : Go A := fun w => (Panics p, w).

Definition bind {A B} (m : Go A) (k : A -> Go B) : Go B :=
  fun w =>
    match m w with
    | (Returns a, w') => k a w'
    | (Panics p, w') => (Panics p, w')
    end.

Definition lift {A} (o : outcome A) : Go A := fun w => (o, w).

Definition log (e : event) : Go unit :=
  fun w => (Returns tt, mkWorld (clock w) (entropy w) (trace w ++ [e])).

Declare Scope go_scope.
Delimit Scope go_scope with go.
Notation "x <- m ;; k" := (bind m (fun x => k))
  (at level 61, m at next level, right associativity) : go_scope.
Notation "m ;;; k" := (bind m (fun _ => k))
  (at level 61, right associativity) : go_scope.
Open Scope go_scope.

(** The value a call returned, if it returned. *)
Definition result {A} (r : outcome A * World) : outcome A := fst r.

Definition world_after {A} (r : outcome A * World) : World := snd r.

(* ================================================================= *)
(** ** Package context *)

Module context.

Inductive Context : Type :=
| Live                        (* Done() is not ready *)
| Done (cause : error).       (* Done() is closed and Err() is cause *)

Definition Background : Context := Live.

(** A context that [cancel()] was called on. *)
Definition canceled : Context := Done Canceled.

(** A context whose deadline has passed. *)
Definition expired : Context := Done DeadlineExceeded.

End context.

(* ================================================================= *)
(** ** Package crypto/rand *)

Module crand.

(** [rand.Read(buf)]: fills [buf] and returns a nil error, or returns an
    error when the source cannot deliver [len(buf)] bytes. *)
Definition Read (buf : list byte) : Go (list byte * option error) :=
  fun w =>
    let n := List.length buf in
    let w1 := mkWorld (clock w) (entropy w) (trace w ++ [EntropyRead n]) in
    if (n <=? List.length (entropy w))%nat
    then (Returns (firstn n (entropy w), None),
          mkWorld (clock w1) (skipn n (entropy w)) (trace w1))
    else (Returns (entropy w ++ skipn (List.length (entropy w)) buf,
                   Some ErrEntropyUnavailable),
          mkWorld (clock w1) [] (trace w1)).

End crand.

(* ================================================================= *)
(** ** Indexing and remainder *)

(** [s[i]] on a string. *)
Definition string_index (s : gostring) (i : Z) : outcome byte :=
  if i <? 0 then Panics IndexOutOfRange
  else match nth_error s (Z.to_nat i) with
       | Some c => Returns c
       | None => Panics IndexOutOfRange
       end.

(** [b % m] on two values of type [byte]. *)
Definition byte_rem (b : byte) (m : Z) : outcome Z :=
  if m =? 0 then Panics DivideByZero
  else Returns (Z.rem (byte_val b) m).

(* ================================================================= *)
(** ** strand.go *)

(** [for i, b := range nonce { nonce[i] = charset[b%charsetLen] }] *)
Fixpoint reduce_nonce (charset : gostring) (charsetLen : Z) (nonce : list byte)
  : outcome (list byte) :=
  match nonce with
  | [] => Returns []
  | b :: rest =>
      match byte_rem b charsetLen with
      | Panics p => Panics p
      | Returns i =>
          match string_index charset i with
          | Panics p => Panics p
          | Returns c =>
              match reduce_nonce charset charsetLen rest with
              | Panics p => Panics p
              | Returns rest' => Returns (c :: rest')
              end
          end
      end
  end.

Definition BytesWithContext (ctx : context.Context) (size : Z) (charset : gostring)
  : Go (byte_slice * option error) :=
  match ctx with
  | context.Done cause =>
      ret (nil_slice,
           Some (Errorf_w
                   "failed to created secure random bytes due to context ending early"
                   cause))
  | context.Live =>
      if size <=? 0 then ret (nil_slice, Some ErrInvalidSize)
      else if len charset =? 0 then ret (nil_slice, Some ErrEmptyCharset)
      else
        r <- crand.Read (make size) ;;
        match r with
        | (_, Some err) =>
            ret (nil_slice, Some (Errorf_w_w ErrRandomFailure err))
        | (nonce, None) =>
            let charsetLen := to_uint8 (len charset) in
            nonce' <- lift (reduce_nonce charset charsetLen nonce) ;;
            ret (slice_of nonce', None)
        end
  end.

Definition Bytes (size : Z) (charset : gostring) : Go (byte_slice * option error) :=
  BytesWithContext context.Background size charset.

Definition StringWithContext (ctx : context.Context) (size : Z) (charset : gostring)
  : Go (gostring * option error) :=
  r <- BytesWithContext ctx size charset ;;
  match r with
  | (_, Some err) => ret ([], Some err)
  | (nonce, None) => ret (string_of_slice nonce, None)
  end.

Definition String (size : Z) (charset : gostring) : Go (gostring * option error) :=
  StringWithContext context.Background size charset.

Definition MustBytes (size : Z) (charset : gostring) : Go byte_slice :=
  r <- Bytes size charset ;;
  match r with
  | (_, Some err) => raise (PanicError err)
  | (b, None) => ret b
  end.

Definition MustString (size : Z) (charset : gostring) : Go gostring :=
  r <- String size charset ;;
  match r with
  | (_, Some err) => raise (PanicError err)
  | (s, None) => ret s
  end.

(* ================================================================= *)
(** ** The reduction, byte by byte *)

(** The byte the loop of [BytesWithContext] stores for the raw byte [b]. *)
Definition reduced (charset : gostring) (charsetLen : Z) (b c : byte) : Prop :=
  charsetLen <> 0 /\ string_index charset (Z.rem (byte_val b) charsetLen) = Returns c.

(** The reduction as the specification words it: every raw byte [b] becomes
    [charset[b mod len(charset)]], with the length of the charset as an
    [int]. *)
Definition reduce_nonce_by_length (charset : gostring) (nonce : list byte)
  : outcome (list byte) :=
  reduce_nonce charset (len charset) nonce.

(* ================================================================= *)
(** ** Package time *)

Module time.

(** [time.Now().UnixNano()] *)
Definition Now_UnixNano : Go Z :=
  log ClockRead ;;; (fun w => (Returns (clock w), w)).

End time.

(* ================================================================= *)
(** ** Package math/rand/v2 *)

Module mrand.

(** The seedable pseudorandom stream the package consumes.  [NewPCG] is
    [rand.New(rand.NewPCG(seed1, seed2))]; [below r n] is the integer
    [r.IntN(n)] returns for a positive [n], with the generator after the
    draw.  The stream is a function of its seeds and of the draws made so
    far, and a draw lies in the half-open range it was asked for. *)
Class Source : Type := {
  Rand : Type;
  NewPCG : Z -> Z -> Rand;
  below : Rand -> Z -> Z * Rand;
  below_range : forall r n, 0 < n -> 0 <= fst (below r n) < n
}.

Definition New `{Source} (seed1 seed2 : Z) : Go Rand :=
  log (RngSeeded seed1 seed2) ;;; ret (NewPCG seed1 seed2).

(** [r.IntN(n)]: panics when [n <= 0]. *)
Definition IntN `{Source} (r : Rand) (n : Z) : Go (Z * Rand) :=
  if n <=? 0 then raise InvalidArgumentToIntN
  else log (RngDraw n) ;;; ret (below r n).

End mrand.

(** A stream to run the seeded generators on: a 128-bit linear congruential
    generator with a multiply-xorshift output function, in the manner of
    PCG, and a multiply-high reduction to the requested range.  Nothing
    below depends on its constants. *)
Module pcg.

Definition mul : Z := 2549297995355413924 * 2 ^ 64 + 4865540595714422341.
Definition inc : Z := 6364136223846793005 * 2 ^ 64 + 1442695040888963407.
Definition cheapMul : Z := 15750249268501108917.

Definition next (s : Z * Z) : Z * Z :=
  let x := (((fst s) * 2 ^ 64 + snd s) * mul + inc) mod 2 ^ 128 in
  (x / 2 ^ 64, x mod 2 ^ 64).

Definition Uint64 (s : Z * Z) : Z * (Z * Z) :=
  let s' := next s in
  let hi := fst s' in
  let lo := snd s' in
  let hi := Z.lxor hi (Z.shiftr hi 32) in
  let hi := (hi * cheapMul) mod 2 ^ 64 in
  let hi := Z.lxor hi (Z.shiftr hi 48) in
  ((hi * Z.lor lo 1) mod 2 ^ 64, s').

Definition below (s : Z * Z) (n : Z) : Z * (Z * Z) :=
  let r := Uint64 s in
  ((fst r * n) / 2 ^ 64, snd r).

#[global] Instance source : mrand.Source.
Proof.
  refine {| mrand.Rand := Z * Z;
            mrand.NewPCG := fun seed1 seed2 => (seed1, seed2);
            mrand.below := below |}.
  intros s n Hn. unfold below, Uint64. cbn [fst snd].
  set (x := _ mod 2 ^ 64).
  assert (Hx : 0 <= x < 2 ^ 64) by (apply Z.mod_pos_bound; lia).
  split.
  - apply Z.div_pos; [nia | lia].
  - apply Z.div_lt_upper_bound; [lia | nia].
Defined.

End pcg.

(* ================================================================= *)
(** ** seeded.go *)

Section Seeded.

Context {src : mrand.Source}.

(** [for i := range nonce { nonce[i] = charset[rng.IntN(charsetLen)] }],
    over the [n] positions of [nonce]. *)
Fixpoint fill_seeded (n : nat) (rng : mrand.Rand) (charsetLen : Z)
         (charset : gostring) : Go (list byte) :=
  match n with
  | O => ret []
  | S k =>
      d <- mrand.IntN rng charsetLen ;;
      c <- lift (string_index charset (fst d)) ;;
      rest <- fill_seeded k (snd d) charsetLen charset ;;
      ret (c :: rest)
  end.

Definition generateSeededBytes (rng : mrand.Rand) (size : Z) (charset : gostring)
  : Go byte_slice :=
  if size <=? 0 then ret (slice_of [])
  else if len charset =? 0 then ret (slice_of (make size))
  else
    let charsetLen := len charset in
    let nonce := make size in
    nonce' <- fill_seeded (List.length nonce) rng charsetLen charset ;;
    ret (slice_of nonce').

(** [seed] is the variadic [seed ...int64]. *)
Definition SeededBytes (size : Z) (charset : gostring) (seed : list Z)
  : Go byte_slice :=
  now <- time.Now_UnixNano ;;
  let seedValue :=
    match seed with
    | [] => now
    | s :: _ => s
    end in
  rng <- mrand.New (to_uint64 seedValue) (to_uint64 (Z.shiftr seedValue 32)) ;;
  generateSeededBytes rng size charset.

Definition SeededBytesWithContext (ctx : context.Context) (size : Z)
           (charset : gostring) (seed : list Z) : Go (byte_slice * option error) :=
  match ctx with
  | context.Done cause =>
      ret (nil_slice,
           Some (Errorf_w
                   "failed to created seeded bytes due to context ending early"
                   cause))
  | context.Live =>
      b <- SeededBytes size charset seed ;;
      ret (b, None)
  end.

Definition SeededString (size : Z) (charset : gostring) (seed : list Z)
  : Go gostring :=
  b <- SeededBytes size charset seed ;;
  ret (string_of_slice b).

Definition SeededStringWithContext (ctx : context.Context) (size : Z)
           (charset : gostring) (seed : list Z) : Go (gostring * option error) :=
  r <- SeededBytesWithContext ctx size charset seed ;;
  match r with
  | (_, Some err) => ret ([], Some err)
  | (bytes, None) => ret (string_of_slice bytes, None)
  end.

(* Functions the proofs below compare the generator with. *)

(** The bytes [fill_seeded] computes, without the world. *)
Fixpoint seeded_chars (n : nat) (rng : mrand.Rand) (charsetLen : Z)
         (charset : gostring) : outcome (list byte) :=
  match n with
  | O => Returns []
  | S k =>
      if charsetLen <=? 0 then Panics InvalidArgumentToIntN
      else
        let d := mrand.below rng charsetLen in
        match string_index charset (fst d) with
        | Panics p => Panics p
        | Returns c =>
            match seeded_chars k (snd d) charsetLen charset with
            | Panics p => Panics p
            | Returns rest => Returns (c :: rest)
            end
        end
  end.

(** The seed the generator is started from. *)
Definition seed_value (seed : list Z) (w : World) : Z :=
  match seed with
  | [] => clock w
  | s :: _ => s
  end.

(** The slice [SeededBytes] computes from the resolved seed. *)
Definition seeded_output (size : Z) (charset : gostring) (seedValue : Z)
  : outcome byte_slice :=
  if size <=? 0 then Returns (slice_of [])
  else if len charset =? 0 then Returns (slice_of (make size))
  else
    match seeded_chars (Z.to_nat size)
            (mrand.NewPCG (to_uint64 seedValue)
                          (to_uint64 (Z.shiftr seedValue 32)))
            (len charset) charset with
    | Panics p => Panics p
    | Returns l => Returns (slice_of l)
    end.

End Seeded.

(* ================================================================= *)
(** ** seeded.go, with the allocation check of [make] *)

(** The largest length [make([]byte, n)] accepts on a 64-bit platform (the
    runtime's [maxAlloc]); beyond it [make] panics with
    [makeslice: len out of range]. *)
Definition maxAlloc : Z := 2 ^ 48.

Module alloc.

Section WithLimit.

Context {src : mrand.Source}.

(** The largest length for which [make([]byte, n)] returns in the run at
    hand: at most [maxAlloc], and no more than memory allows. *)
Variable limit : Z.

(** [make([]byte, size)] *)
Definition makeslice (size : Z) : outcome (list byte) :=
  if (size <? 0) || (limit <? size) then Panics MakeFailed
  else Returns (make size).

Definition generateSeededBytes (rng : mrand.Rand) (size : Z) (charset : gostring)
  : Go byte_slice :=
  if size <=? 0 then ret (slice_of [])
  else if len charset =? 0 then
         buf <- lift (makeslice size) ;;
         ret (slice_of buf)
  else
    let charsetLen := len charset in
    nonce <- lift (makeslice size) ;;
    nonce' <- fill_seeded (List.length nonce) rng charsetLen charset ;;
    ret (slice_of nonce').

Definition SeededBytes (size : Z) (charset : gostring) (seed : list Z)
  : Go byte_slice :=
  now <- time.Now_UnixNano ;;
  let seedValue :=
    match seed with
    | [] => now
    | s :: _ => s
    end in
  rng <- mrand.New (to_uint64 seedValue) (to_uint64 (Z.shiftr seedValue 32)) ;;
  generateSeededBytes rng size charset.

Definition SeededBytesWithContext (ctx : context.Context) (size : Z)
           (charset : gostring) (seed : list Z) : Go (byte_slice * option error) :=
  match ctx with
  | context.Done cause =>
      ret (nil_slice,
           Some (Errorf_w
                   "failed to created seeded bytes due to context ending early"
                   cause))
  | context.Live =>
      b <- SeededBytes size charset seed ;;
      ret (b, None)
  end.

Definition SeededString (size : Z) (charset : gostring) (seed : list Z)
  : Go gostring :=
  b <- SeededBytes size charset seed ;;
  ret (string_of_slice b).

Definition SeededStringWithContext (ctx : context.Context) (size : Z)
           (charset : gostring) (seed : list Z) : Go (gostring * option error) :=
  r <- SeededBytesWithContext ctx size charset seed ;;
  match r with
  | (_, Some err) => ret ([], Some err)
  | (bytes, None) => ret (string_of_slice bytes, None)
  end.

End WithLimit.

End alloc.

(* ================================================================= *)
(** ** Charsets of the package and sample worlds *)

Definition UppercaseAlphabet : gostring := str "ABCDEFGHIJKLMNOPQRSTUVWXYZ".
Definition LowercaseAlphabet : gostring := str "abcdefghijklmnopqrstuvwxyz".
Definition Alphabet : gostring := LowercaseAlphabet ++ UppercaseAlphabet.
Definition Numbers : gostring := str "0123456789".
Definition Symbols : gostring := str "<>,\./|?;:[]{}+=_-()*&^%$#@!~".

(** A world whose entropy source delivers the given bytes and then fails. *)
Definition world_with (bs : list byte) : World := mkWorld 1700000000000000000 bs [].

Definition sample_entropy : list byte := [x05; xff; x20; x41; x00; x9c; x7f; x0a].

(** A charset of 257 bytes: the ten digits, then 247 times the letter x. *)
Definition charset257 : gostring := Numbers ++ repeat "x"%byte 247.

(** A charset of 256 bytes. *)
Definition charset256 : gostring := repeat "x"%byte 256.

(* ================================================================= *)
(** ** The fuzz targets of the package ([FuzzBytes], [FuzzSeededDeterminism]) *)

(** What a fuzz target told [*testing.T]. *)
Inductive complaint : Type :=
| WrongLength                   (* t.Errorf("Expected length ...") *)
| NotInCharset (b : byte)       (* t.Errorf("Byte %c not found in charset %s") *)
| NotDeterministic.             (* t.Errorf("... not deterministic with seed %d") *)

(** How a run of a fuzz target ended: it ran to its end, with the complaints
    it made through [t.Errorf] (none when it returned early), or [t.Fatalf]
    stopped it. *)
Inductive report : Type :=
| Completed (complaints : list complaint)
| Fatal.

(** The inner loop of [FuzzBytes]:
    [for i := range len(charset) { if b == charset[i] { found = true; break } }] *)
Fixpoint found (b : byte) (charset : gostring) : bool :=
  match charset with
  | [] => false
  | c :: rest => if Byte.eqb b c then true else found b rest
  end.

(** [for _, b := range bytes { ... if !found { t.Errorf(...) } }] *)
Fixpoint check_members (bytes : list byte) (charset : gostring) : list complaint :=
  match bytes with
  | [] => []
  | b :: rest =>
      (if found b charset then [] else [NotInCharset b])
        ++ check_members rest charset
  end.

(** The function [FuzzBytes] hands to [f.Fuzz]. *)
Definition FuzzBytes (size : Z) (charset : gostring) : Go report :=
  if (size <=? 0) || (len charset =? 0) then ret (Completed [])
  else
    let size := if 1000 <? size then 1000 else size in
    r <- Bytes size charset ;;
    match r with
    | (_, Some err) => ret Fatal
    | (bytes, None) =>
        let length_check :=
          if len (string_of_slice bytes) =? size then [] else [WrongLength] in
        ret (Completed
               (length_check ++ check_members (string_of_slice bytes) charset))
    end.

(** [bytes.Equal] and [==] on strings: the same bytes in the same order; a
    nil slice counts as an empty one. *)
Fixpoint bytes_equal (a b : list byte) : bool :=
  match a, b with
  | [], [] => true
  | x :: a', y :: b' => Byte.eqb x y && bytes_equal a' b'
  | _, _ => false
  end.

(** The function [FuzzSeededDeterminism] hands to [f.Fuzz]. *)
Definition FuzzSeededDeterminism `{mrand.Source}
           (size : Z) (charset : gostring) (seed : Z) : Go report :=
  if (size <=? 0) || (len charset =? 0) then ret (Completed [])
  else
    let size := if 1000 <? size then 1000 else size in
    bytes1 <- SeededBytes size charset [seed] ;;
    bytes2 <- SeededBytes size charset [seed] ;;
    let c1 := if len (string_of_slice bytes1) =? size then [] else [WrongLength] in
    let c2 :=
      if bytes_equal (string_of_slice bytes1) (string_of_slice bytes2)
      then [] else [NotDeterministic] in
    str1 <- SeededString size charset [seed] ;;
    str2 <- SeededString size charset [seed] ;;
    let c3 := if len str1 =? size then [] else [WrongLength] in
    let c4 := if bytes_equal str1 str2 then [] else [NotDeterministic] in
    ret (Completed (c1 ++ c2 ++ c3 ++ c4)).

(* ================================================================= *)
(** ** Counting the raw bytes behind an index *)

(** The 256 values of a byte, in increasing order. *)
Definition all_bytes : list byte :=
  flat_map (fun n => match Byte.of_nat n with
                     | Some b => [b]
                     | None => []
                     end) (seq 0 256).

(** [b % charsetLen] is [i]. *)
Definition selects (charsetLen i : Z) (b : byte) : bool :=
  match byte_rem b charsetLen with
  | Returns j => j =? i
  | Panics _ => false
  end.

(** The raw bytes the secure reduction sends to index [i]. *)
Definition raw_bytes_for (charsetLen i : Z) : list byte :=
  filter (selects charsetLen i) all_bytes.

Example Bytes_sample :
  result (Bytes 4 Numbers (world_with sample_entropy))
  = Returns (slice_of (str "5525"), None).
Proof. vm_compute. reflexivity. Qed.

Example SeededString_sample :
  result (SeededString 10 UppercaseAlphabet [42] (world_with []))
  = result (SeededString 10 UppercaseAlphabet [42] (world_with sample_entropy)).
Proof. vm_compute. reflexivity. Qed.

(* ================================================================= *)
(** ** The secure generator *)

Lemma byte_val_range (b : byte) : 0 <= byte_val b < 256.
Proof.
  unfold byte_val. pose proof (Byte.to_N_bounded b). lia.
Qed.

Lemma len_nonneg (s : gostring) : 0 <= len s.
Proof. unfold len. lia. Qed.

Lemma len_zero_iff (s : gostring) : len s = 0 <-> s = [].
Proof.
  unfold len. destruct s; simpl; split; intros H; try reflexivity; try discriminate; lia.
Qed.

Lemma make_length (size : Z) : List.length (make size) = Z.to_nat size.
Proof. unfold make. apply repeat_length. Qed.

Lemma string_index_In (s : gostring) (i : Z) (c : byte) :
  string_index s i = Returns c -> In c s.
Proof.
  unfold string_index. destruct (i <? 0); [discriminate |].
  destruct (nth_error s (Z.to_nat i)) eqn:E; [| discriminate].
  intros H. inversion H; subst. eapply nth_error_In; eassumption.
Qed.

Lemma string_index_in_range (s : gostring) (i : Z) :
  0 <= i < len s -> exists c, string_index s i = Returns c.
Proof.
  unfold string_index, len. intros [Hlo Hhi].
  destruct (i <? 0) eqn:E; [apply Z.ltb_lt in E; lia |].
  destruct (nth_error s (Z.to_nat i)) eqn:N; [eauto |].
  apply nth_error_None in N. lia.
Qed.

Lemma reduce_nonce_pointwise (charset : gostring) (m : Z) (nonce out : list byte) :
  reduce_nonce charset m nonce = Returns out ->
  Forall2 (reduced charset m) nonce out.
Proof.
  revert out. induction nonce as [| b rest IH]; intros out H; simpl in H.
  - inversion H. constructor.
  - unfold byte_rem in H. destruct (m =? 0) eqn:Em; [discriminate |].
    apply Z.eqb_neq in Em.
    destruct (string_index charset (Z.rem (byte_val b) m)) as [c | p] eqn:Ec;
      [| discriminate].
    destruct (reduce_nonce charset m rest) as [rest' | p] eqn:Er; [| discriminate].
    inversion H; subst. constructor.
    + split; assumption.
    + apply IH. reflexivity.
Qed.

Lemma reduce_nonce_total (charset : gostring) (m : Z) (nonce : list byte) :
  0 < m <= len charset -> exists out, reduce_nonce charset m nonce = Returns out.
Proof.
  intros Hm. induction nonce as [| b rest [out IH]]; simpl.
  - eauto.
  - unfold byte_rem. destruct (m =? 0) eqn:Em; [apply Z.eqb_eq in Em; lia |].
    pose proof (byte_val_range b) as Hb.
    destruct (string_index_in_range charset (Z.rem (byte_val b) m)) as [c Hc].
    { rewrite Z.rem_mod_nonneg by lia.
      pose proof (Z.mod_pos_bound (byte_val b) m). lia. }
    rewrite Hc, IH. eauto.
Qed.

Lemma reduce_nonce_zero_modulus (charset : gostring) (b : byte) (rest : list byte) :
  reduce_nonce charset 0 (b :: rest) = Panics DivideByZero.
Proof. reflexivity. Qed.

(** What a successful call of [BytesWithContext] went through. *)
Lemma BytesWithContext_success ctx size charset w b w' :
  BytesWithContext ctx size charset w = (Returns (b, None), w') ->
  ctx = context.Live /\ 0 < size /\ len charset <> 0
  /\ (Z.to_nat size <= List.length (entropy w))%nat
  /\ exists out,
      b = slice_of out
      /\ reduce_nonce charset (to_uint8 (len charset))
           (firstn (Z.to_nat size) (entropy w)) = Returns out
      /\ w' = mkWorld (clock w) (skipn (Z.to_nat size) (entropy w))
                (trace w ++ [EntropyRead (Z.to_nat size)]).
Proof.
  unfold BytesWithContext. destruct ctx as [| cause]; [| discriminate].
  destruct (size <=? 0) eqn:Es; [discriminate |].
  destruct (len charset =? 0) eqn:El; [discriminate |].
  apply Z.leb_gt in Es. apply Z.eqb_neq in El.
  unfold bind, crand.Read, lift, ret. rewrite make_length.
  destruct (Z.to_nat size <=? List.length (entropy w))%nat eqn:En; [| discriminate].
  apply Nat.leb_le in En. cbn [clock entropy trace].
  destruct (reduce_nonce charset (to_uint8 (len charset))
              (firstn (Z.to_nat size) (entropy w))) as [out | p] eqn:Er;
    [| discriminate].
  intros H. inversion H; subst.
  repeat split; try assumption. exists out. repeat split.
Qed.

Lemma StringWithContext_success ctx size charset w s w' :
  StringWithContext ctx size charset w = (Returns (s, None), w') ->
  exists b, BytesWithContext ctx size charset w = (Returns (b, None), w')
            /\ s = string_of_slice b.
Proof.
  unfold StringWithContext, bind.
  destruct (BytesWithContext ctx size charset w) as [[[b [e |]] | p] w1];
    unfold ret; intros H; inversion H; subst.
  exists b. split; reflexivity.
Qed.

(** The buffer a successful call of the byte form returns. *)
Lemma BytesWithContext_buffer ctx size charset w b w' :
  BytesWithContext ctx size charset w = (Returns (b, None), w') ->
  exists out, b = slice_of out /\ len out = size
              /\ Forall (fun c => In c charset) out.
Proof.
  intros H. apply BytesWithContext_success in H.
  destruct H as (_ & Hsize & _ & Hn & out & -> & Hr & _).
  exists out. split; [reflexivity |].
  apply reduce_nonce_pointwise in Hr. split.
  - apply Forall2_length in Hr. unfold len. rewrite <- Hr.
    rewrite length_firstn. lia.
  - clear Hn. induction Hr as [| x c l l' [_ Hxc] _ IH]; constructor.
    + eapply string_index_In; eassumption.
    + exact IH.
Qed.

(** The secure generator returns a buffer whenever the context is not done,
    the arguments are valid, the entropy source delivers and the length of
    the charset is not a multiple of 256. *)
Lemma BytesWithContext_returns size charset w :
  0 < size -> len charset mod 256 <> 0 ->
  size <= len (entropy w) ->
  exists out,
    result (BytesWithContext context.Live size charset w)
    = Returns (slice_of out, None).
Proof.
  intros Hsize Hmod Hent. unfold BytesWithContext, result.
  destruct (size <=? 0) eqn:Es; [apply Z.leb_le in Es; lia |].
  destruct (len charset =? 0) eqn:El;
    [apply Z.eqb_eq in El; rewrite El in Hmod; contradiction |].
  apply Z.eqb_neq in El. pose proof (len_nonneg charset) as Hlen.
  unfold bind, crand.Read, lift. rewrite make_length. unfold len in Hent.
  destruct (Z.to_nat size <=? List.length (entropy w))%nat eqn:En;
    [| apply Nat.leb_gt in En; lia].
  cbn [clock entropy trace].
  destruct (reduce_nonce_total charset (to_uint8 (len charset))
              (firstn (Z.to_nat size) (entropy w))) as [out Hout].
  { unfold to_uint8. pose proof (Z.mod_pos_bound (len charset) 256).
    pose proof (Z.mod_le (len charset) 256). lia. }
  rewrite Hout. exists out. reflexivity.
Qed.

(** C1. Whenever a secure generator returns without an error for a positive
    [size] and a non-empty [charset], the buffer (or string) it returns has
    exactly [size] elements and each of them occurs in [charset].  This holds
    for [BytesWithContext], [Bytes], [StringWithContext] and [String]. *)
Theorem secure_output_length_and_membership :
  forall ctx size charset w w',
    0 < size -> charset <> [] ->
    (forall b,
        BytesWithContext ctx size charset w = (Returns (b, None), w') ->
        exists out, b = slice_of out /\ len out = size
                    /\ Forall (fun c => In c charset) out)
    /\ (forall b,
           Bytes size charset w = (Returns (b, None), w') ->
           exists out, b = slice_of out /\ len out = size
                       /\ Forall (fun c => In c charset) out)
    /\ (forall s,
           StringWithContext ctx size charset w = (Returns (s, None), w') ->
           len s = size /\ Forall (fun c => In c charset) s)
    /\ (forall s,
           String size charset w = (Returns (s, None), w') ->
           len s = size /\ Forall (fun c => In c charset) s).
Proof.
  intros ctx size charset w w' _ _.
  assert (Hstr : forall c s,
             StringWithContext c size charset w = (Returns (s, None), w') ->
             len s = size /\ Forall (fun c => In c charset) s).
  { intros c s H. apply StringWithContext_success in H.
    destruct H as (b & Hb & ->).
    apply BytesWithContext_buffer in Hb. destruct Hb as (out & -> & Hl & Hin).
    split; assumption. }
  split; [| split; [| split]].
  - intros b. apply BytesWithContext_buffer.
  - intros b. unfold Bytes. apply BytesWithContext_buffer.
  - apply Hstr.
  - unfold String. apply Hstr.
Qed.

Lemma secure_output_length_and_membership_witness :
  exists out,
    slice_of (str "5525") = slice_of out /\ len out = 4
    /\ Forall (fun c => In c Numbers) out.
Proof.
  destruct (secure_output_length_and_membership
              context.Live 4 Numbers (world_with sample_entropy)
              (world_after (Bytes 4 Numbers (world_with sample_entropy))))
    as [H _]; [lia | discriminate |].
  apply (H (slice_of (str "5525"))). vm_compute. reflexivity.
Defined.

(* ================================================================= *)
(** ** The modulus of the secure reduction *)

(** What the code does: the modulus is the low byte of the length. *)
Lemma secure_reduction_by_low_byte ctx size charset w b w' :
  BytesWithContext ctx size charset w = (Returns (b, None), w') ->
  Forall2 (reduced charset (len charset mod 256))
          (firstn (Z.to_nat size) (entropy w)) (string_of_slice b).
Proof.
  intros H. apply BytesWithContext_success in H.
  destruct H as (_ & _ & _ & _ & out & -> & Hr & _).
  apply reduce_nonce_pointwise in Hr. exact Hr.
Qed.

(** For a charset of fewer than 256 bytes the two moduli are the same. *)
Lemma secure_reduction_by_length_below_256 ctx size charset w b w' :
  len charset < 256 ->
  BytesWithContext ctx size charset w = (Returns (b, None), w') ->
  reduce_nonce_by_length charset (firstn (Z.to_nat size) (entropy w))
  = Returns (string_of_slice b).
Proof.
  intros Hlen H. apply BytesWithContext_success in H.
  destruct H as (_ & _ & _ & _ & out & -> & Hr & _).
  unfold reduce_nonce_by_length, to_uint8 in *.
  rewrite Z.mod_small in Hr by (pose proof (len_nonneg charset); lia).
  exact Hr.
Qed.

(** C3. With the 257-byte charset [charset257] and the raw byte 5 the secure
    generator returns [charset[0]], the digit 0, where the reduction by the
    full length selects [charset[5]], the digit 5: the code reduces modulo
    [byte(len(charset))], which is 1 here. *)
Theorem secure_reduction_truncates_charset_length :
  len charset257 = 257
  /\ to_uint8 (len charset257) = 1
  /\ result (Bytes 1 charset257 (world_with [x05]))
     = Returns (slice_of [ "0"%byte ], None)
  /\ reduce_nonce_by_length charset257 [x05] = Returns [ "5"%byte ].
Proof. vm_compute. repeat split. Qed.




(* ================================================================= *)
(** ** Validation, cancellation and the wrappers *)

Lemma Is_refl (e : error) : errors.Is e e = true.
Proof.
  destruct e; cbn [errors.Is];
    match goal with
    | |- context [error_eq_dec ?a ?b] => destruct (error_eq_dec a b) as [_ | n]
    end; try reflexivity; exfalso; apply n; reflexivity.
Qed.

Lemma Is_Errorf_w (prefix : string) (e : error) :
  errors.Is (Errorf_w prefix e) e = true.
Proof.
  cbn [errors.Is]. rewrite Is_refl. apply orb_true_r.
Qed.

Example canceled_is_not_deadline_exceeded :
  errors.Is (Errorf_w "failed to created secure random bytes due to context ending early"
                      Canceled) DeadlineExceeded = false
  /\ errors.Is (Errorf_w "failed to created seeded bytes due to context ending early"
                         DeadlineExceeded) Canceled = false.
Proof. split; reflexivity. Qed.

(** C4, as the code has it. On a context that is not done ([Bytes] and
    [String] run on the background context), a call with [size <= 0] returns
    [ErrInvalidSize], and a call with a positive [size] and an empty charset
    returns [ErrEmptyCharset]; in both cases the world is left as it was, so
    the entropy source has not been read. *)
Theorem secure_validation_precedes_entropy :
  forall size charset w,
    (size <= 0 ->
     BytesWithContext context.Live size charset w
     = (Returns (nil_slice, Some ErrInvalidSize), w)
     /\ Bytes size charset w = (Returns (nil_slice, Some ErrInvalidSize), w)
     /\ StringWithContext context.Live size charset w
        = (Returns ([], Some ErrInvalidSize), w)
     /\ String size charset w = (Returns ([], Some ErrInvalidSize), w))
    /\ (0 < size -> charset = [] ->
        BytesWithContext context.Live size charset w
        = (Returns (nil_slice, Some ErrEmptyCharset), w)
        /\ Bytes size charset w = (Returns (nil_slice, Some ErrEmptyCharset), w)
        /\ StringWithContext context.Live size charset w
           = (Returns ([], Some ErrEmptyCharset), w)
        /\ String size charset w = (Returns ([], Some ErrEmptyCharset), w)).
Proof.
  intros size charset w. split.
  - intros Hsize.
    unfold String, Bytes, StringWithContext, bind, context.Background,
      BytesWithContext.
    apply Z.leb_le in Hsize. rewrite Hsize. repeat split.
  - intros Hsize ->.
    unfold String, Bytes, StringWithContext, bind, context.Background,
      BytesWithContext.
    apply Z.leb_gt in Hsize. rewrite Hsize. repeat split.
Qed.

Lemma secure_validation_precedes_entropy_witness :
  Bytes 0 Alphabet (world_with sample_entropy)
  = (Returns (nil_slice, Some ErrInvalidSize), world_with sample_entropy)
  /\ String 5 [] (world_with sample_entropy)
     = (Returns ([], Some ErrEmptyCharset), world_with sample_entropy).
Proof.
  split.
  - apply (proj1 (secure_validation_precedes_entropy
                    0 Alphabet (world_with sample_entropy))). lia.
  - apply (proj2 (secure_validation_precedes_entropy
                    5 [] (world_with sample_entropy))); [lia | reflexivity].
Defined.

(** C4 as stated fails: an empty charset together with [size = 0] is
    reported as [ErrInvalidSize], not as [ErrEmptyCharset], and on a canceled
    context [size = 0] is reported as a cancellation. *)
Lemma secure_empty_charset_not_always_reported :
  result (Bytes 0 [] (world_with sample_entropy))
  = Returns (nil_slice, Some ErrInvalidSize)
  /\ result (String 0 [] (world_with sample_entropy))
     = Returns ([], Some ErrInvalidSize)
  /\ errors.Is ErrInvalidSize ErrEmptyCharset = false
  /\ result (BytesWithContext context.canceled 0 Alphabet (world_with sample_entropy))
     = Returns (nil_slice,
                Some (Errorf_w
                        "failed to created secure random bytes due to context ending early"
                        Canceled))
  /\ errors.Is (Errorf_w
                  "failed to created secure random bytes due to context ending early"
                  Canceled) ErrInvalidSize = false.
Proof. vm_compute. repeat split. Qed.

(** C9. [MustBytes] and [MustString] return what [Bytes] and [String] return
    when these succeed, leaving the world in the same state, and panic with
    the very error [Bytes] and [String] return when these fail. *)
Theorem must_variants_follow_fallible_calls :
  forall size charset w w',
    (forall b,
        Bytes size charset w = (Returns (b, None), w') ->
        MustBytes size charset w = (Returns b, w'))
    /\ (forall b e,
           Bytes size charset w = (Returns (b, Some e), w') ->
           MustBytes size charset w = (Panics (PanicError e), w'))
    /\ (forall s,
           String size charset w = (Returns (s, None), w') ->
           MustString size charset w = (Returns s, w'))
    /\ (forall s e,
           String size charset w = (Returns (s, Some e), w') ->
           MustString size charset w = (Panics (PanicError e), w')).
Proof.
  intros size charset w w'. unfold MustBytes, MustString, bind.
  repeat split; intros; rewrite H; reflexivity.
Qed.

Lemma must_variants_follow_fallible_calls_witness :
  MustBytes 4 Numbers (world_with sample_entropy)
  = (Returns (slice_of (str "5525")),
     world_after (Bytes 4 Numbers (world_with sample_entropy)))
  /\ MustString 0 Alphabet (world_with sample_entropy)
     = (Panics (PanicError ErrInvalidSize), world_with sample_entropy).
Proof.
  split.
  - apply (proj1 (must_variants_follow_fallible_calls
                    4 Numbers (world_with sample_entropy)
                    (world_after (Bytes 4 Numbers (world_with sample_entropy))))).
    vm_compute. reflexivity.
  - apply (proj2 (proj2 (proj2 (must_variants_follow_fallible_calls
                                  0 Alphabet (world_with sample_entropy)
                                  (world_with sample_entropy)))) []).
    vm_compute. reflexivity.
Defined.

Lemma BytesWithContext_error_nil ctx size charset w b e w' :
  BytesWithContext ctx size charset w = (Returns (b, Some e), w') -> b = nil_slice.
Proof.
  unfold BytesWithContext. destruct ctx as [| cause].
  - destruct (size <=? 0); [intros H; inversion H; reflexivity |].
    destruct (len charset =? 0); [intros H; inversion H; reflexivity |].
    unfold bind. destruct (crand.Read (make size) w) as [[[nonce [err |]] | p] w1].
    + intros H; inversion H; reflexivity.
    + unfold lift. destruct (reduce_nonce _ _ _); discriminate.
    + discriminate.
  - intros H; inversion H; reflexivity.
Qed.

Lemma StringWithContext_error_empty ctx size charset w s e w' :
  StringWithContext ctx size charset w = (Returns (s, Some e), w') -> s = [].
Proof.
  unfold StringWithContext, bind.
  destruct (BytesWithContext ctx size charset w) as [[[b [err |]] | p] w1];
    unfold ret; intros H; inversion H; reflexivity.
Qed.

(* ================================================================= *)
(** ** The seeded generator *)

Section SeededProperties.

Context {src : mrand.Source}.

Lemma fill_seeded_result (n : nat) :
  forall rng charsetLen charset w,
    result (fill_seeded n rng charsetLen charset w)
    = seeded_chars n rng charsetLen charset.
Proof.
  induction n as [| k IH]; intros rng m charset w; [reflexivity |].
  cbn [fill_seeded seeded_chars]. unfold bind at 1. unfold mrand.IntN.
  destruct (m <=? 0); [reflexivity |].
  unfold bind at 1. unfold log, ret. unfold bind at 1. unfold lift.
  destruct (string_index charset (fst (mrand.below rng m))) as [c | p];
    [| reflexivity].
  unfold bind. specialize (IH (snd (mrand.below rng m)) m charset).
  match goal with
  | |- context [fill_seeded k ?r m charset ?w0] =>
      specialize (IH w0); destruct (fill_seeded k r m charset w0) as [[l | p] w1]
  end; unfold result in *; cbn [fst] in *; rewrite <- IH; reflexivity.
Qed.

Lemma seeded_chars_total (n : nat) :
  forall rng charset,
    charset <> [] ->
    exists l, seeded_chars n rng (len charset) charset = Returns l
              /\ List.length l = n /\ Forall (fun c => In c charset) l.
Proof.
  induction n as [| k IH]; intros rng charset Hne.
  - exists []. repeat split. constructor.
  - cbn [seeded_chars].
    assert (Hpos : 0 < len charset).
    { pose proof (len_nonneg charset). pose proof (len_zero_iff charset).
      destruct (Z.eq_dec (len charset) 0); [tauto | lia]. }
    destruct (len charset <=? 0) eqn:E; [apply Z.leb_le in E; lia |].
    destruct (string_index_in_range charset
                (fst (mrand.below rng (len charset)))) as [c Hc].
    { apply mrand.below_range. exact Hpos. }
    rewrite Hc.
    destruct (IH (snd (mrand.below rng (len charset))) charset Hne)
      as (l & Hl & Hlen & Hin).
    rewrite Hl. exists (c :: l). repeat split.
    + simpl. rewrite Hlen. reflexivity.
    + constructor; [eapply string_index_In; eassumption | exact Hin].
Qed.

Lemma generateSeededBytes_result rng size charset w :
  result (generateSeededBytes rng size charset w)
  = if size <=? 0 then Returns (slice_of [])
    else if len charset =? 0 then Returns (slice_of (make size))
         else match seeded_chars (Z.to_nat size) rng (len charset) charset with
              | Panics p => Panics p
              | Returns l => Returns (slice_of l)
              end.
Proof.
  unfold generateSeededBytes.
  destruct (size <=? 0); [reflexivity |].
  destruct (len charset =? 0); [reflexivity |].
  rewrite make_length. unfold bind.
  rewrite <- (fill_seeded_result (Z.to_nat size) rng (len charset) charset w).
  destruct (fill_seeded (Z.to_nat size) rng (len charset) charset w)
    as [[l | p] w1]; reflexivity.
Qed.

(** [SeededBytes] reads the clock, seeds a generator of its own and hands
    it to [generateSeededBytes]. *)
Lemma SeededBytes_run size charset seed w :
  SeededBytes size charset seed w
  = generateSeededBytes
      (mrand.NewPCG (to_uint64 (seed_value seed w))
                    (to_uint64 (Z.shiftr (seed_value seed w) 32)))
      size charset
      (mkWorld (clock w) (entropy w)
         ((trace w ++ [ClockRead])
            ++ [RngSeeded (to_uint64 (seed_value seed w))
                          (to_uint64 (Z.shiftr (seed_value seed w) 32))])).
Proof. destruct seed; reflexivity. Qed.

Lemma SeededBytes_result size charset seed w :
  result (SeededBytes size charset seed w)
  = seeded_output size charset (seed_value seed w).
Proof.
  rewrite SeededBytes_run, generateSeededBytes_result. reflexivity.
Qed.

Lemma SeededString_result size charset seed w :
  result (SeededString size charset seed w)
  = match seeded_output size charset (seed_value seed w) with
    | Panics p => Panics p
    | Returns b => Returns (string_of_slice b)
    end.
Proof.
  rewrite <- SeededBytes_result. unfold SeededString, bind.
  destruct (SeededBytes size charset seed w) as [[b | p] w1]; reflexivity.
Qed.

(** With a [make] that always returns, the seeded generator returns on
    every input. *)
Lemma seeded_output_returns size charset seedValue :
  exists b, seeded_output size charset seedValue = Returns (slice_of b).
Proof.
  unfold seeded_output.
  destruct (size <=? 0); [eauto |].
  destruct (len charset =? 0) eqn:E; [eauto |].
  apply Z.eqb_neq in E.
  assert (Hne : charset <> []) by (intros ->; apply E; reflexivity).
  destruct (seeded_chars_total (Z.to_nat size)
              (mrand.NewPCG (to_uint64 seedValue)
                            (to_uint64 (Z.shiftr seedValue 32)))
              charset Hne) as (l & Hl & _).
  rewrite Hl. eauto.
Qed.

(** Two calls in a row, the second one in the world the first one left. *)
Lemma SeededBytes_twice size charset s rest w :
  exists b,
    result ((x <- SeededBytes size charset (s :: rest) ;;
             y <- SeededBytes size charset (s :: rest) ;;
             ret (x, y)) w)
    = Returns (slice_of b, slice_of b).
Proof.
  destruct (seeded_output_returns size charset s) as [b Hb].
  exists b. unfold bind.
  pose proof (SeededBytes_result size charset (s :: rest) w) as H1.
  destruct (SeededBytes size charset (s :: rest) w) as [[x | p] w1];
    unfold result in H1; cbn [fst seed_value] in H1;
    rewrite Hb in H1; [| discriminate].
  pose proof (SeededBytes_result size charset (s :: rest) w1) as H2.
  destruct (SeededBytes size charset (s :: rest) w1) as [[y | p] w2];
    unfold result in H2; cbn [fst seed_value] in H2;
    rewrite Hb in H2; [| discriminate].
  inversion H1; inversion H2; subst. reflexivity.
Qed.

End SeededProperties.



Example SeededBytes_uppercase_42 :
  result (SeededBytes 10 UppercaseAlphabet [42] (world_with []))
  = result (SeededBytes 10 UppercaseAlphabet [42]
              (world_after (SeededBytes 10 UppercaseAlphabet [42] (world_with [])))).
Proof. vm_compute. reflexivity. Qed.

(** With a [make] that always returns: the seeded generator on an empty
    charset. *)
Lemma SeededBytes_empty_charset_run {src : mrand.Source} size seed w :
  result (SeededBytes size [] seed w)
  = Returns (slice_of (repeat x00 (Z.to_nat size)))
  /\ result (SeededString size [] seed w) = Returns (repeat x00 (Z.to_nat size))
  /\ trace (world_after (SeededBytes size [] seed w))
     = trace w ++ [ClockRead;
                   RngSeeded (to_uint64 (seed_value seed w))
                             (to_uint64 (Z.shiftr (seed_value seed w) 32))].
Proof.
  assert (Hout : seeded_output size [] (seed_value seed w)
                 = Returns (slice_of (repeat x00 (Z.to_nat size)))).
  { unfold seeded_output. destruct (size <=? 0) eqn:E.
    - apply Z.leb_le in E. replace (Z.to_nat size) with O by lia. reflexivity.
    - reflexivity. }
  rewrite SeededBytes_result, SeededString_result, Hout.
  split; [reflexivity |]. split; [reflexivity |].
  rewrite SeededBytes_run. unfold generateSeededBytes.
  destruct (size <=? 0); cbn; rewrite <- app_assoc; reflexivity.
Qed.

(* ================================================================= *)
(** ** The seeded generator and the allocation check *)

Section Allocation.

Context {src : mrand.Source}.

Variable limit : Z.

(** Within the limit [make] returns, and the calls are those given first. *)
Lemma alloc_generateSeededBytes_within rng size charset w :
  size <= limit ->
  alloc.generateSeededBytes limit rng size charset w
  = generateSeededBytes rng size charset w.
Proof.
  intros Hsize. unfold alloc.generateSeededBytes, generateSeededBytes,
    alloc.makeslice.
  destruct (size <=? 0) eqn:Es; [reflexivity |]. apply Z.leb_gt in Es.
  assert (E1 : (size <? 0) = false) by (apply Z.ltb_ge; lia).
  assert (E2 : (limit <? size) = false) by (apply Z.ltb_ge; lia).
  rewrite E1, E2. cbn [orb].
  destruct (len charset =? 0); reflexivity.
Qed.

Lemma alloc_SeededBytes_within size charset seed w :
  size <= limit ->
  alloc.SeededBytes limit size charset seed w = SeededBytes size charset seed w.
Proof.
  intros Hsize. unfold alloc.SeededBytes, SeededBytes, bind.
  destruct (time.Now_UnixNano w) as [[now | p] w1]; [| reflexivity].
  match goal with
  | |- context [mrand.New ?a ?b w1] =>
      destruct (mrand.New a b w1) as [[rng | p] w2]; [| reflexivity]
  end.
  apply alloc_generateSeededBytes_within. exact Hsize.
Qed.

Lemma alloc_calls_within size charset seed w :
  size <= limit ->
  alloc.SeededString limit size charset seed w = SeededString size charset seed w
  /\ alloc.SeededBytesWithContext limit context.Live size charset seed w
     = SeededBytesWithContext context.Live size charset seed w
  /\ alloc.SeededStringWithContext limit context.Live size charset seed w
     = SeededStringWithContext context.Live size charset seed w.
Proof.
  intros Hsize.
  unfold alloc.SeededStringWithContext, SeededStringWithContext,
    alloc.SeededBytesWithContext, SeededBytesWithContext,
    alloc.SeededString, SeededString, bind.
  rewrite (alloc_SeededBytes_within size charset seed w Hsize).
  repeat split.
Qed.

(** Beyond the limit a positive size makes [make] panic, after the clock was
    read and the generator seeded. *)
Lemma alloc_SeededBytes_beyond size charset seed w :
  0 < size -> limit < size ->
  result (alloc.SeededBytes limit size charset seed w) = Panics MakeFailed
  /\ result (alloc.SeededString limit size charset seed w) = Panics MakeFailed
  /\ result (alloc.SeededBytesWithContext limit context.Live size charset seed w)
     = Panics MakeFailed
  /\ result (alloc.SeededStringWithContext limit context.Live size charset seed w)
     = Panics MakeFailed.
Proof.
  intros Hpos Hsize.
  assert (H : result (alloc.SeededBytes limit size charset seed w)
              = Panics MakeFailed).
  { unfold alloc.SeededBytes, alloc.generateSeededBytes, alloc.makeslice,
      bind, result.
    destruct (time.Now_UnixNano w) as [[now | p] w1] eqn:Hnow;
      [| unfold time.Now_UnixNano, bind, log in Hnow; discriminate].
    match goal with
    | |- context [mrand.New ?a ?b w1] =>
        destruct (mrand.New a b w1) as [[rng | p] w2] eqn:Hnew;
          [| unfold mrand.New, bind, log, ret in Hnew; discriminate]
    end.
    destruct (size <=? 0) eqn:Es; [apply Z.leb_le in Es; lia |].
    assert (E2 : (limit <? size) = true) by (apply Z.ltb_lt; lia).
    rewrite E2, orb_true_r.
    destruct (len charset =? 0); reflexivity. }
  unfold alloc.SeededStringWithContext, alloc.SeededBytesWithContext,
    alloc.SeededString, bind.
  unfold result in *.
  destruct (alloc.SeededBytes limit size charset seed w) as [[b | p] w1];
    cbn [fst] in *; [discriminate |].
  inversion H. repeat split.
Qed.

End Allocation.

(** C7, as the code has it. With an empty charset and a size that [make] can
    allocate (any [size <= 0] included, for which [make] is not reached),
    the seeded generators return without drawing from the generator and
    without indexing the charset: [SeededBytes] returns [size] zero bytes
    (none when [size <= 0]) and [SeededString] the string of these bytes; the
    only events are the clock read and the seeding. *)
Theorem seeded_empty_charset_returns_zero_bytes {src : mrand.Source} :
  forall limit size seed w,
    size <= limit ->
    result (alloc.SeededBytes limit size [] seed w)
    = Returns (slice_of (repeat x00 (Z.to_nat size)))
    /\ result (alloc.SeededString limit size [] seed w)
       = Returns (repeat x00 (Z.to_nat size))
    /\ len (repeat x00 (Z.to_nat size)) = Z.max 0 size
    /\ trace (world_after (alloc.SeededBytes limit size [] seed w))
       = trace w ++ [ClockRead;
                     RngSeeded (to_uint64 (seed_value seed w))
                               (to_uint64 (Z.shiftr (seed_value seed w) 32))].
Proof.
  intros limit size seed w Hsize.
  destruct (alloc_calls_within limit size [] seed w Hsize) as (Hs & _).
  rewrite Hs, (alloc_SeededBytes_within limit size [] seed w Hsize).
  destruct (SeededBytes_empty_charset_run size seed w) as (H1 & H2 & H3).
  split; [exact H1 |]. split; [exact H2 |]. split; [| exact H3].
  unfold len. rewrite repeat_length. lia.
Qed.

Lemma seeded_empty_charset_returns_zero_bytes_witness :
  result (alloc.SeededBytes maxAlloc 3 [] [42] (world_with []))
  = Returns (slice_of [x00; x00; x00])
  /\ result (alloc.SeededString maxAlloc 3 [] [42] (world_with []))
     = Returns [x00; x00; x00].
Proof.
  destruct (seeded_empty_charset_returns_zero_bytes
              maxAlloc 3 [42] (world_with [])) as (Hb & Hs & _).
  - vm_compute. discriminate.
  - split; [exact Hb | exact Hs].
Defined.

(** C7 as stated fails: for a size beyond what [make] accepts, here 2^62
    with the largest limit a 64-bit platform has, the call with an empty
    charset panics in [make([]byte, size)]. *)
Lemma seeded_empty_charset_panics_beyond_allocation :
  0 < 2 ^ 62
  /\ result (alloc.SeededBytes maxAlloc (2 ^ 62) [] [42] (world_with []))
     = Panics MakeFailed
  /\ result (alloc.SeededString maxAlloc (2 ^ 62) [] [42] (world_with []))
     = Panics MakeFailed.
Proof. vm_compute. repeat split. Qed.

Example SeededBytes_empty_charset :
  result (SeededBytes 3 [] [42] (world_with [])) = Returns (slice_of [x00; x00; x00]).
Proof. vm_compute. reflexivity. Qed.

(** C8. For [size <= 0] and any charset, [SeededBytes] returns an empty,
    non-nil slice and [SeededString] the empty string; neither panics and
    neither has an error result. *)
Theorem seeded_nonpositive_size_returns_empty {src : mrand.Source} :
  forall size charset seed w,
    size <= 0 ->
    result (SeededBytes size charset seed w) = Returns (slice_of [])
    /\ result (SeededString size charset seed w) = Returns [].
Proof.
  intros size charset seed w Hsize.
  rewrite SeededBytes_result, SeededString_result. unfold seeded_output.
  apply Z.leb_le in Hsize. rewrite Hsize. split; reflexivity.
Qed.

Lemma seeded_nonpositive_size_returns_empty_witness :
  (result (SeededBytes 0 Alphabet [42] (world_with [])) = Returns (slice_of [])
   /\ result (SeededString 0 Alphabet [42] (world_with [])) = Returns [])
  /\ (result (SeededBytes (-7) [] [] (world_with [])) = Returns (slice_of [])
      /\ result (SeededString (-7) [] [] (world_with [])) = Returns []).
Proof.
  split.
  - apply (seeded_nonpositive_size_returns_empty 0 Alphabet [42] (world_with [])).
    lia.
  - apply (seeded_nonpositive_size_returns_empty (-7) [] [] (world_with [])).
    lia.
Defined.

(** C5. On a context that is already done, each context-aware variant
    returns no data and an error that wraps the context's own error (for
    which [errors.Is] holds), for every size, charset and seed, and leaves
    the world as it was: no entropy is read, the clock is not read and no
    generator is seeded or drawn from. *)
Theorem done_context_returns_before_any_work {src : mrand.Source} :
  forall cause size charset seed w,
    (exists e,
        BytesWithContext (context.Done cause) size charset w
        = (Returns (nil_slice, Some e), w)
        /\ errors.Is e cause = true)
    /\ (exists e,
           StringWithContext (context.Done cause) size charset w
           = (Returns ([], Some e), w)
           /\ errors.Is e cause = true)
    /\ (exists e,
           SeededBytesWithContext (context.Done cause) size charset seed w
           = (Returns (nil_slice, Some e), w)
           /\ errors.Is e cause = true)
    /\ (exists e,
           SeededStringWithContext (context.Done cause) size charset seed w
           = (Returns ([], Some e), w)
           /\ errors.Is e cause = true).
Proof.
  intros cause size charset seed w.
  repeat split; eexists; (split; [reflexivity | apply Is_Errorf_w]).
Qed.

Lemma done_context_returns_before_any_work_witness :
  exists e,
    SeededStringWithContext context.canceled 10 Alphabet [42]
      (world_with sample_entropy)
    = (Returns ([], Some e), world_with sample_entropy)
    /\ errors.Is e Canceled = true.
Proof.
  exact (proj2 (proj2 (proj2 (done_context_returns_before_any_work
                                Canceled 10 Alphabet [42]
                                (world_with sample_entropy))))).
Defined.

Example canceled_context_examples :
  result (StringWithContext context.canceled 10 (str "ABC") (world_with sample_entropy))
  = Returns ([], Some (Errorf_w
                         "failed to created secure random bytes due to context ending early"
                         Canceled))
  /\ result (SeededBytesWithContext context.expired 10 Alphabet [42] (world_with []))
     = Returns (nil_slice,
                Some (Errorf_w
                        "failed to created seeded bytes due to context ending early"
                        DeadlineExceeded)).
Proof. split; reflexivity. Qed.

(** C10. Whenever one of the operations that can return an error does return
    one, the data returned with it is the nil slice, or the empty string for
    the string forms. *)
Theorem error_comes_without_data {src : mrand.Source} :
  forall ctx size charset seed w w' e,
    (forall b,
        BytesWithContext ctx size charset w = (Returns (b, Some e), w') ->
        b = nil_slice)
    /\ (forall b,
           Bytes size charset w = (Returns (b, Some e), w') -> b = nil_slice)
    /\ (forall s,
           StringWithContext ctx size charset w = (Returns (s, Some e), w') ->
           s = [])
    /\ (forall s,
           String size charset w = (Returns (s, Some e), w') -> s = [])
    /\ (forall b,
           SeededBytesWithContext ctx size charset seed w = (Returns (b, Some e), w') ->
           b = nil_slice)
    /\ (forall s,
           SeededStringWithContext ctx size charset seed w = (Returns (s, Some e), w') ->
           s = []).
Proof.
  intros ctx size charset seed w w' e.
  assert (Hseeded : forall b,
             SeededBytesWithContext ctx size charset seed w
             = (Returns (b, Some e), w') -> b = nil_slice).
  { intros b. unfold SeededBytesWithContext. destruct ctx as [| cause].
    - unfold bind.
      destruct (SeededBytes size charset seed w) as [[x | p] w1]; discriminate.
    - intros H; inversion H; reflexivity. }
  split; [| split; [| split; [| split; [| split]]]].
  - intros b. apply BytesWithContext_error_nil.
  - intros b. unfold Bytes. apply BytesWithContext_error_nil.
  - intros s. apply StringWithContext_error_empty.
  - intros s. unfold String. apply StringWithContext_error_empty.
  - exact Hseeded.
  - intros s. unfold SeededStringWithContext, bind.
    destruct (SeededBytesWithContext ctx size charset seed w)
      as [[[b [err |]] | p] w1]; unfold ret; intros H; inversion H; reflexivity.
Qed.

Lemma error_comes_without_data_witness :
  (BytesWithContext context.Live 9 Numbers (world_with sample_entropy)
   = (Returns (nil_slice, Some (Errorf_w_w ErrRandomFailure ErrEntropyUnavailable)),
      world_after (Bytes 9 Numbers (world_with sample_entropy)))
   /\ nil_slice = nil_slice)
  /\ (SeededStringWithContext context.expired 9 Numbers [42] (world_with sample_entropy)
      = (Returns ([], Some (Errorf_w
                              "failed to created seeded bytes due to context ending early"
                              DeadlineExceeded)),
         world_with sample_entropy)
      /\ @nil byte = []).
Proof.
  split; (split; [vm_compute; reflexivity |]).
  - apply (proj1 (error_comes_without_data
                    context.Live 9 Numbers [42] (world_with sample_entropy)
                    (world_after (Bytes 9 Numbers (world_with sample_entropy)))
                    (Errorf_w_w ErrRandomFailure ErrEntropyUnavailable))
                 nil_slice).
    vm_compute. reflexivity.
  - apply (proj2 (proj2 (proj2 (proj2 (proj2
             (error_comes_without_data
                context.expired 9 Numbers [42] (world_with sample_entropy)
                (world_with sample_entropy)
                (Errorf_w "failed to created seeded bytes due to context ending early"
                          DeadlineExceeded))))))
                 []).
    vm_compute. reflexivity.
Defined.

(* ================================================================= *)
(** ** More on the secure generator *)

(** A call on a context that is not done, with valid arguments, a charset
    whose length is no multiple of 256 and enough entropy: what it returns
    and the world it leaves. *)
Lemma BytesWithContext_run size charset w :
  0 < size -> len charset mod 256 <> 0 -> size <= len (entropy w) ->
  exists out,
    reduce_nonce charset (to_uint8 (len charset))
      (firstn (Z.to_nat size) (entropy w)) = Returns out
    /\ BytesWithContext context.Live size charset w
       = (Returns (slice_of out, None),
          mkWorld (clock w) (skipn (Z.to_nat size) (entropy w))
            (trace w ++ [EntropyRead (Z.to_nat size)])).
Proof.
  intros Hsize Hmod Hent. unfold BytesWithContext.
  destruct (size <=? 0) eqn:Es; [apply Z.leb_le in Es; lia |].
  destruct (len charset =? 0) eqn:El;
    [apply Z.eqb_eq in El; rewrite El in Hmod; contradiction |].
  apply Z.eqb_neq in El. pose proof (len_nonneg charset) as Hlen.
  unfold bind, crand.Read, lift. rewrite make_length. unfold len in Hent.
  destruct (Z.to_nat size <=? List.length (entropy w))%nat eqn:En;
    [| apply Nat.leb_gt in En; lia].
  cbn [clock entropy trace].
  destruct (reduce_nonce_total charset (to_uint8 (len charset))
              (firstn (Z.to_nat size) (entropy w))) as [out Hout].
  { unfold to_uint8. pose proof (Z.mod_pos_bound (len charset) 256).
    pose proof (Z.mod_le (len charset) 256). lia. }
  rewrite Hout. exists out. split; reflexivity.
Qed.


(** X1. A successful secure call makes one read of exactly [size] bytes: it
    takes the first [size] bytes of what the entropy source holds, leaves the
    rest in place and does nothing else to the world. *)
Theorem secure_call_reads_exactly_size_bytes :
  forall ctx size charset w b w',
    BytesWithContext ctx size charset w = (Returns (b, None), w') ->
    entropy w = firstn (Z.to_nat size) (entropy w) ++ entropy w'
    /\ len (entropy w') = len (entropy w) - size
    /\ trace w' = trace w ++ [EntropyRead (Z.to_nat size)]
    /\ clock w' = clock w.
Proof.
  intros ctx size charset w b w' H. apply BytesWithContext_success in H.
  destruct H as (_ & Hsize & _ & Hn & out & _ & _ & ->). cbn [entropy trace clock].
  split; [symmetry; apply firstn_skipn |].
  split; [| split; reflexivity].
  unfold len. rewrite length_skipn. lia.
Qed.

Lemma secure_call_reads_exactly_size_bytes_witness :
  sample_entropy = firstn 4 sample_entropy ++ [x00; x9c; x7f; x0a]
  /\ len [x00; x9c; x7f; x0a] = len sample_entropy - 4.
Proof.
  pose proof (secure_call_reads_exactly_size_bytes
                context.Live 4 Numbers (world_with sample_entropy)
                (slice_of (str "5525"))
                (world_after (Bytes 4 Numbers (world_with sample_entropy))))
    as H.
  destruct H as (H1 & H2 & _); [vm_compute; reflexivity |].
  split; [exact H1 | exact H2].
Defined.



(** A call whose entropy read falls short. *)
Lemma BytesWithContext_short_entropy size charset w :
  0 < size -> len charset <> 0 -> len (entropy w) < size ->
  BytesWithContext context.Live size charset w
  = (Returns (nil_slice, Some (Errorf_w_w ErrRandomFailure ErrEntropyUnavailable)),
     mkWorld (clock w) [] (trace w ++ [EntropyRead (Z.to_nat size)])).
Proof.
  intros Hsize Hlen Hent. unfold BytesWithContext.
  destruct (size <=? 0) eqn:Es; [apply Z.leb_le in Es; lia |].
  destruct (len charset =? 0) eqn:El; [apply Z.eqb_eq in El; contradiction |].
  unfold bind, crand.Read. rewrite make_length. unfold len in Hent.
  destruct (Z.to_nat size <=? List.length (entropy w))%nat eqn:En;
    [apply Nat.leb_le in En; lia |].
  reflexivity.
Qed.

(** A call that reaches the reduction with a modulus of zero. *)
Lemma BytesWithContext_zero_modulus size charset w :
  0 < size -> 0 < len charset -> len charset mod 256 = 0 ->
  size <= len (entropy w) ->
  result (BytesWithContext context.Live size charset w) = Panics DivideByZero.
Proof.
  intros Hsize Hpos Hmod Hent. unfold BytesWithContext, result.
  destruct (size <=? 0) eqn:Es; [apply Z.leb_le in Es; lia |].
  destruct (len charset =? 0) eqn:El; [apply Z.eqb_eq in El; lia |].
  unfold bind, crand.Read, lift. rewrite make_length. unfold len in Hent.
  destruct (Z.to_nat size <=? List.length (entropy w))%nat eqn:En;
    [| apply Nat.leb_gt in En; lia].
  cbn [clock entropy trace]. unfold to_uint8. rewrite Hmod.
  destruct (entropy w) as [| b rest] eqn:Ew; [simpl in Hent; lia |].
  destruct (Z.to_nat size) as [| n] eqn:Ez; [lia |].
  rewrite firstn_cons, reduce_nonce_zero_modulus. reflexivity.
Qed.




(** X4. On a context that is not done, an error of the secure generator
    names its cause: it is [ErrInvalidSize] only when [size <= 0],
    [ErrEmptyCharset] only when the size is positive and the charset empty,
    and otherwise it wraps [ErrRandomFailure] and the entropy source held
    fewer than [size] bytes. *)
Theorem secure_error_names_its_cause :
  forall size charset w b e w',
    BytesWithContext context.Live size charset w = (Returns (b, Some e), w') ->
    (size <= 0 /\ e = ErrInvalidSize)
    \/ (0 < size /\ charset = [] /\ e = ErrEmptyCharset)
    \/ (0 < size /\ charset <> [] /\ len (entropy w) < size
        /\ e = Errorf_w_w ErrRandomFailure ErrEntropyUnavailable).
Proof.
  intros size charset w b e w'. unfold BytesWithContext.
  destruct (size <=? 0) eqn:Es.
  { apply Z.leb_le in Es. intros H; inversion H. left. split; [lia | reflexivity]. }
  apply Z.leb_gt in Es.
  destruct (len charset =? 0) eqn:El.
  { apply Z.eqb_eq in El. apply len_zero_iff in El.
    intros H; inversion H. right; left. repeat split; [lia | exact El]. }
  apply Z.eqb_neq in El.
  assert (Hne : charset <> []) by (rewrite <- len_zero_iff; exact El).
  unfold bind, crand.Read, lift. rewrite make_length.
  destruct (Z.to_nat size <=? List.length (entropy w))%nat eqn:En.
  - cbn [clock entropy trace].
    destruct (reduce_nonce _ _ _); discriminate.
  - apply Nat.leb_gt in En. intros H; inversion H. right; right.
    repeat split; try assumption. unfold len. lia.
Qed.

Lemma secure_error_names_its_cause_witness :
  (0 <= 0 /\ ErrInvalidSize = ErrInvalidSize)
  \/ (0 < 0 /\ Alphabet = [] /\ ErrInvalidSize = ErrEmptyCharset)
  \/ (0 < 0 /\ Alphabet <> [] /\ len (entropy (world_with sample_entropy)) < 0
      /\ ErrInvalidSize = Errorf_w_w ErrRandomFailure ErrEntropyUnavailable).
Proof.
  apply (secure_error_names_its_cause
           0 Alphabet (world_with sample_entropy) nil_slice ErrInvalidSize
           (world_with sample_entropy)).
  vm_compute. reflexivity.
Defined.

(** X5. The secure generator never indexes the charset out of range, on
    any input, and it divides by zero only on a context that is not done,
    with a positive size and a charset whose length is a positive multiple
    of 256, after the entropy source has delivered the [size] bytes. *)
Theorem secure_never_indexes_out_of_range :
  forall ctx size charset w,
    result (BytesWithContext ctx size charset w) <> Panics IndexOutOfRange
    /\ (result (BytesWithContext ctx size charset w) = Panics DivideByZero ->
        ctx = context.Live /\ 0 < size /\ 0 < len charset
        /\ len charset mod 256 = 0 /\ size <= len (entropy w)).
Proof.
  intros ctx size charset w.
  assert (Hcases :
            forall p, result (BytesWithContext ctx size charset w) = Panics p ->
                      p = DivideByZero
                      /\ ctx = context.Live /\ 0 < size /\ 0 < len charset
                      /\ len charset mod 256 = 0 /\ size <= len (entropy w)).
  { intros p H. destruct ctx as [| cause]; [| discriminate].
    destruct (Z_le_gt_dec size 0) as [Hs | Hs].
    { unfold BytesWithContext, result in H. apply Z.leb_le in Hs.
      rewrite Hs in H. discriminate. }
    destruct (Z.eq_dec (len charset) 0) as [Hl | Hl].
    { unfold BytesWithContext, result in H.
      destruct (size <=? 0); [discriminate |].
      rewrite Hl in H. discriminate. }
    pose proof (len_nonneg charset).
    destruct (Z_lt_le_dec (len (entropy w)) size) as [He | He].
    { rewrite BytesWithContext_short_entropy in H by lia. discriminate. }
    destruct (Z.eq_dec (len charset mod 256) 0) as [Hm | Hm].
    - rewrite BytesWithContext_zero_modulus in H by lia.
      inversion H. repeat split; try lia.
    - destruct (BytesWithContext_run size charset w) as (out & _ & Hrun); try lia.
      rewrite Hrun in H. discriminate. }
  split.
  - intros H. destruct (Hcases _ H) as [Hp _]. discriminate.
  - intros H. destruct (Hcases _ H) as [_ Hrest]. exact Hrest.
Qed.

Lemma secure_never_indexes_out_of_range_witness :
  context.Live = context.Live /\ 0 < 2 /\ 0 < len charset256
  /\ len charset256 mod 256 = 0 /\ 2 <= len (entropy (world_with sample_entropy)).
Proof.
  apply (proj2 (secure_never_indexes_out_of_range
                  context.Live 2 charset256 (world_with sample_entropy))).
  vm_compute. reflexivity.
Defined.

Lemma reduced_nth_error charset m b c :
  0 < m -> reduced charset m b c ->
  nth_error charset (Z.to_nat (byte_val b mod m)) = Some c
  /\ 0 <= byte_val b mod m < m.
Proof.
  intros Hm [_ H]. pose proof (byte_val_range b) as Hb.
  rewrite Z.rem_mod_nonneg in H by lia.
  pose proof (Z.mod_pos_bound (byte_val b) m Hm) as Hr.
  unfold string_index in H.
  destruct (byte_val b mod m <? 0) eqn:E; [discriminate |].
  destruct (nth_error charset (Z.to_nat (byte_val b mod m))) as [c' |];
    [| discriminate].
  inversion H; subst. split; [reflexivity | exact Hr].
Qed.



(** X7. Every byte a successful secure call returns stands at one of the
    first [len(charset) mod 256] positions of the charset: the part of a
    charset beyond its length modulo 256 is never used. *)
Theorem secure_output_confined_to_prefix :
  forall ctx size charset w b w',
    BytesWithContext ctx size charset w = (Returns (b, None), w') ->
    Forall (fun c => In c (firstn (Z.to_nat (len charset mod 256)) charset))
           (string_of_slice b).
Proof.
  intros ctx size charset w b w' H.
  pose proof (secure_reduction_by_low_byte _ _ _ _ _ _ H) as Hred.
  pose proof (len_nonneg charset) as Hnn.
  pose proof (Z.mod_pos_bound (len charset) 256 ltac:(lia)) as Hm.
  clear H. induction Hred as [| x c l l' Hxc _ IH]; constructor.
  - assert (Hpos : 0 < len charset mod 256) by (destruct Hxc as [Hz _]; lia).
    destruct (reduced_nth_error _ _ _ _ Hpos Hxc) as [Hnth Hr].
    apply nth_error_In with (n := Z.to_nat (byte_val x mod (len charset mod 256))).
    rewrite nth_error_firstn.
    destruct (Z.to_nat (byte_val x mod (len charset mod 256))
              <? Z.to_nat (len charset mod 256))%nat eqn:E;
      [exact Hnth | apply Nat.ltb_ge in E; lia].
  - exact IH.
Qed.

Lemma secure_output_confined_to_prefix_witness :
  Forall (fun c => In c (firstn (Z.to_nat (len charset257 mod 256)) charset257))
         (string_of_slice (slice_of (str "000"))).
Proof.
  apply (secure_output_confined_to_prefix
           context.Live 3 charset257 (world_with sample_entropy)
           (slice_of (str "000"))
           (world_after (Bytes 3 charset257 (world_with sample_entropy)))).
  vm_compute. reflexivity.
Defined.

Lemma byte_of_index (i : nat) :
  (i < 256)%nat -> exists raw, byte_val raw = Z.of_nat i.
Proof.
  intros Hi. destruct (Byte.of_nat i) as [raw |] eqn:E.
  - exists raw. apply Byte.to_of_nat in E. unfold byte_val.
    rewrite Byte.to_N_via_nat, E. lia.
  - apply Byte.of_nat_None_iff in E. lia.
Qed.

(** X8. Every byte of a charset shorter than 256 bytes can come out: for
    each position of the charset there is a raw byte on which a call for one
    byte returns the byte at that position. *)
Theorem secure_every_position_reachable_below_256 :
  forall charset i c,
    len charset < 256 -> nth_error charset i = Some c ->
    exists raw,
      forall clk rest tr,
        result (Bytes 1 charset (mkWorld clk (raw :: rest) tr))
        = Returns (slice_of [c], None).
Proof.
  intros charset i c Hlt Hnth.
  assert (Hi : (i < List.length charset)%nat).
  { apply nth_error_Some. rewrite Hnth. discriminate. }
  unfold len in Hlt.
  destruct (byte_of_index i) as [raw Hraw]; [lia |].
  exists raw. intros clk rest tr.
  assert (Hmod : len charset mod 256 = len charset)
    by (apply Z.mod_small; unfold len; lia).
  assert (Hred : reduce_nonce charset (to_uint8 (len charset)) [raw]
                 = Returns [c]).
  { cbn [reduce_nonce]. unfold byte_rem, to_uint8. rewrite Hmod.
    destruct (len charset =? 0) eqn:El;
      [apply Z.eqb_eq in El; unfold len in El; lia |].
    rewrite Hraw, Z.rem_mod_nonneg by (unfold len; lia).
    rewrite Z.mod_small by (unfold len; lia).
    unfold string_index.
    destruct (Z.of_nat i <? 0) eqn:E; [apply Z.ltb_lt in E; lia |].
    rewrite Nat2Z.id, Hnth. reflexivity. }
  destruct (BytesWithContext_run 1 charset (mkWorld clk (raw :: rest) tr))
    as (out & Hout & Hrun).
  - lia.
  - rewrite Hmod. unfold len. lia.
  - unfold len. cbn [entropy List.length]. lia.
  - change (Z.to_nat 1) with 1%nat in Hout. cbn [entropy firstn] in Hout.
    rewrite Hred in Hout. inversion Hout; subst.
    unfold Bytes, context.Background. rewrite Hrun. reflexivity.
Qed.

Lemma secure_every_position_reachable_below_256_witness :
  exists raw,
    forall clk rest tr,
      result (Bytes 1 Numbers (mkWorld clk (raw :: rest) tr))
      = Returns (slice_of [ "7"%byte ], None).
Proof.
  apply (secure_every_position_reachable_below_256 Numbers 7 "7"%byte).
  - vm_compute. reflexivity.
  - reflexivity.
Defined.

(* ================================================================= *)
(** ** The bias of the byte-wise reduction *)

Lemma all_bytes_complete (b : byte) : In b all_bytes.
Proof.
  unfold all_bytes. apply in_flat_map. exists (Byte.to_nat b). split.
  - apply in_seq. pose proof (Byte.to_nat_bounded b). lia.
  - rewrite Byte.of_to_nat. left. reflexivity.
Qed.

Lemma all_bytes_NoDup : NoDup all_bytes.
Proof.
  apply (NoDup_map_inv Byte.to_nat).
  replace (map Byte.to_nat all_bytes) with (seq 0 256)
    by (vm_compute; reflexivity).
  apply seq_NoDup.
Qed.

Lemma selects_iff (m i : Z) (b : byte) :
  m <> 0 -> selects m i b = true <-> Z.rem (byte_val b) m = i.
Proof.
  intros Hm. unfold selects, byte_rem.
  destruct (m =? 0) eqn:E; [apply Z.eqb_eq in E; contradiction |].
  apply Z.eqb_eq.
Qed.

(** How many numbers below [N] leave the remainder [i] modulo [m]. *)
Lemma count_residues (m i N : nat) :
  (0 < m)%nat -> (i < m)%nat ->
  List.length (filter (fun n => Nat.eqb (n mod m) i) (seq 0 N))
  = (N / m + (if (i <? N mod m)%nat then 1 else 0))%nat.
Proof.
  intros Hm Hi. induction N as [| N IH].
  - rewrite Nat.Div0.div_0_l, Nat.Div0.mod_0_l. reflexivity.
  - rewrite seq_S, filter_app, length_app, IH. cbn [filter Nat.add].
    pose proof (Nat.div_mod_eq N m) as E1.
    pose proof (Nat.div_mod_eq (S N) m) as E2.
    pose proof (Nat.mod_upper_bound N m ltac:(lia)) as B1.
    pose proof (Nat.mod_upper_bound (S N) m ltac:(lia)) as B2.
    assert (Hcase : ((S N / m = N / m /\ S N mod m = S (N mod m))
                     \/ (S N / m = S (N / m) /\ S N mod m = 0
                         /\ N mod m = m - 1))%nat).
    { revert E1 E2 B1 B2.
      generalize (N / m)%nat (N mod m)%nat (S N / m)%nat (S N mod m)%nat.
      intros q r q' r' E1 E2 B1 B2.
      destruct (Nat.lt_trichotomy q' q) as [H | [H | H]].
      - exfalso. assert (m * q' + m <= m * q)%nat by nia. lia.
      - subst q'. left. lia.
      - destruct (Nat.eq_dec q' (S q)) as [-> | Hne].
        + right. rewrite Nat.mul_succ_r in E2. lia.
        + exfalso. assert (m * q + 2 * m <= m * q')%nat by nia. lia. }
    destruct (Nat.eqb (N mod m) i) eqn:Eq;
      [apply Nat.eqb_eq in Eq | apply Nat.eqb_neq in Eq];
      destruct (i <? N mod m)%nat eqn:L1;
      [apply Nat.ltb_lt in L1 | apply Nat.ltb_ge in L1
       | apply Nat.ltb_lt in L1 | apply Nat.ltb_ge in L1];
      destruct (i <? S N mod m)%nat eqn:L2;
      [apply Nat.ltb_lt in L2 | apply Nat.ltb_ge in L2
       | apply Nat.ltb_lt in L2 | apply Nat.ltb_ge in L2
       | apply Nat.ltb_lt in L2 | apply Nat.ltb_ge in L2
       | apply Nat.ltb_lt in L2 | apply Nat.ltb_ge in L2];
      cbn [List.length]; lia.
Qed.

Lemma all_bytes_by_value :
  map byte_val all_bytes = map Z.of_nat (seq 0 256).
Proof. vm_compute. reflexivity. Qed.

(** The raw bytes behind an index, counted. *)
Lemma raw_bytes_count (m i : nat) :
  (0 < m)%nat -> (i < m)%nat ->
  List.length (raw_bytes_for (Z.of_nat m) (Z.of_nat i))
  = (256 / m + (if (i <? 256 mod m)%nat then 1 else 0))%nat.
Proof.
  intros Hm Hi. rewrite <- (count_residues m i 256 Hm Hi).
  unfold raw_bytes_for.
  rewrite <- (length_map byte_val), <- (length_map Z.of_nat).
  assert (Hfilter : forall l,
             map byte_val (filter (selects (Z.of_nat m) (Z.of_nat i)) l)
             = filter (fun z => Z.rem z (Z.of_nat m) =? Z.of_nat i)
                      (map byte_val l)).
  { intros l. rewrite filter_map_swap. f_equal. apply filter_ext. intros b.
    unfold selects, byte_rem.
    destruct (Z.of_nat m =? 0) eqn:E; [apply Z.eqb_eq in E; lia | reflexivity]. }
  rewrite Hfilter, all_bytes_by_value, filter_map_swap.
  apply (f_equal (@List.length Z)), (f_equal (map Z.of_nat)).
  apply filter_ext. intros n.
  rewrite Z.rem_mod_nonneg, <- Nat2Z.inj_mod by lia.
  destruct (Nat.eqb (n mod m) i) eqn:E;
    [apply Nat.eqb_eq in E; apply Z.eqb_eq; lia
    | apply Nat.eqb_neq in E; apply Z.eqb_neq; lia].
Qed.

(** X9. The bias of the secure reduction. For a modulus [m] between 1 and
    255 and an index [i] below it, the raw bytes that select index [i] are
    the bytes [b] with [b % m = i], and there are [256 / m] of them, plus
    one when [i < 256 mod m]: the first [256 mod m] positions of a charset
    are each favoured by one raw byte, and no position is favoured when the
    length divides 256. *)
Theorem secure_reduction_bias :
  forall m i,
    0 < m < 256 -> 0 <= i < m ->
    (forall b, In b (raw_bytes_for m i) <-> Z.rem (byte_val b) m = i)
    /\ NoDup (raw_bytes_for m i)
    /\ len (raw_bytes_for m i)
       = 256 / m + (if i <? 256 mod m then 1 else 0).
Proof.
  intros m i Hm Hi. split; [| split].
  - intros b. unfold raw_bytes_for. rewrite filter_In, selects_iff by lia.
    pose proof (all_bytes_complete b). tauto.
  - apply NoDup_filter. apply all_bytes_NoDup.
  - pose proof (raw_bytes_count (Z.to_nat m) (Z.to_nat i)
                  ltac:(lia) ltac:(lia)) as T.
    rewrite !Z2Nat.id in T by lia. unfold len. rewrite T.
    rewrite Nat2Z.inj_add, Nat2Z.inj_div. change (Z.of_nat 256) with 256.
    rewrite Z2Nat.id by lia. f_equal.
    assert (Hr : Z.of_nat (256 mod Z.to_nat m) = 256 mod m).
    { rewrite Nat2Z.inj_mod. change (Z.of_nat 256) with 256.
      rewrite Z2Nat.id by lia. reflexivity. }
    destruct (Z.to_nat i <? 256 mod Z.to_nat m)%nat eqn:L1;
      [apply Nat.ltb_lt in L1 | apply Nat.ltb_ge in L1];
      destruct (i <? 256 mod m) eqn:L2;
      [apply Z.ltb_lt in L2 | apply Z.ltb_ge in L2
       | apply Z.ltb_lt in L2 | apply Z.ltb_ge in L2];
      try reflexivity; lia.
Qed.

Lemma secure_reduction_bias_witness :
  len (raw_bytes_for 10 5) = 256 / 10 + 1
  /\ len (raw_bytes_for 10 6) = 256 / 10 + 0.
Proof.
  split.
  - apply (proj2 (proj2 (secure_reduction_bias 10 5 ltac:(lia) ltac:(lia)))).
  - apply (proj2 (proj2 (secure_reduction_bias 10 6 ltac:(lia) ltac:(lia)))).
Defined.



(* ================================================================= *)
(** ** More on the seeded generator *)

Section SeededMore.

Context {src : mrand.Source}.


Lemma seeded_output_valid size charset seedValue :
  0 < size -> charset <> [] ->
  exists out,
    seeded_output size charset seedValue = Returns (slice_of out)
    /\ len out = size /\ Forall (fun c => In c charset) out.
Proof.
  intros Hsize Hne. unfold seeded_output.
  destruct (size <=? 0) eqn:Es; [apply Z.leb_le in Es; lia |].
  destruct (len charset =? 0) eqn:El;
    [apply Z.eqb_eq in El; apply len_zero_iff in El; contradiction |].
  destruct (seeded_chars_total (Z.to_nat size)
              (mrand.NewPCG (to_uint64 seedValue)
                            (to_uint64 (Z.shiftr seedValue 32)))
              charset Hne) as (l & Hl & Hlen & Hin).
  rewrite Hl. exists l. repeat split; [unfold len; lia | exact Hin].
Qed.

(** A call of [SeededBytes], of [SeededString] and of the two context-aware
    variants on a context that is not done, side by side. *)
Lemma seeded_calls_side_by_side size charset seed w :
  exists out w',
    seeded_output size charset (seed_value seed w) = Returns (slice_of out)
    /\ SeededBytes size charset seed w = (Returns (slice_of out), w')
    /\ SeededString size charset seed w = (Returns out, w')
    /\ SeededBytesWithContext context.Live size charset seed w
       = (Returns (slice_of out, None), w')
    /\ SeededStringWithContext context.Live size charset seed w
       = (Returns (out, None), w').
Proof.
  destruct (seeded_output_returns size charset (seed_value seed w)) as [out Hout].
  pose proof (SeededBytes_result size charset seed w) as Hr.
  unfold SeededStringWithContext, SeededBytesWithContext, SeededString, bind.
  destruct (SeededBytes size charset seed w) as [[x | p] w1];
    unfold result in Hr; cbn [fst] in Hr; rewrite Hout in Hr;
    [| discriminate].
  inversion Hr; subst. exists out, w1. repeat split. exact Hout.
Qed.

End SeededMore.

(** X11. For a positive size that [make] can allocate and a non-empty
    charset, whatever the seed (given or taken from the clock), [SeededBytes]
    returns exactly [size] bytes, each of them a byte of the charset, and
    [SeededString] returns the string of these bytes; no draw leaves the
    charset and nothing panics. *)
Theorem seeded_output_length_and_membership {src : mrand.Source} :
  forall limit size charset seed w,
    0 < size -> size <= limit -> charset <> [] ->
    exists out,
      result (alloc.SeededBytes limit size charset seed w) = Returns (slice_of out)
      /\ result (alloc.SeededString limit size charset seed w) = Returns out
      /\ len out = size
      /\ Forall (fun c => In c charset) out.
Proof.
  intros limit size charset seed w Hsize Hlimit Hne.
  destruct (seeded_output_valid size charset (seed_value seed w) Hsize Hne)
    as (out & Hout & Hlen & Hin).
  destruct (alloc_calls_within limit size charset seed w Hlimit) as (Hs & _).
  exists out.
  rewrite Hs, (alloc_SeededBytes_within limit size charset seed w Hlimit).
  rewrite SeededBytes_result, SeededString_result, Hout.
  repeat split; assumption.
Qed.

Lemma seeded_output_length_and_membership_witness :
  exists out,
    result (alloc.SeededBytes maxAlloc 12 Symbols [] (world_with []))
    = Returns (slice_of out)
    /\ result (alloc.SeededString maxAlloc 12 Symbols [] (world_with []))
       = Returns out
    /\ len out = 12
    /\ Forall (fun c => In c Symbols) out.
Proof.
  apply (seeded_output_length_and_membership
           maxAlloc 12 Symbols [] (world_with [])).
  - lia.
  - vm_compute. discriminate.
  - discriminate.
Defined.



(** X13. On a context that is not done, the context-aware seeded variants
    do what [SeededBytes] and [SeededString] do.  For a size that [make] can
    allocate all four return: the context-aware ones with a nil error and
    exactly the bytes and the string of the plain ones, leaving the same
    world.  For a positive size beyond that, all four panic in [make]. *)
Theorem seeded_context_variants_agree_on_live_context {src : mrand.Source} :
  forall limit size charset seed w,
    (size <= limit ->
     exists out w',
       alloc.SeededBytes limit size charset seed w = (Returns (slice_of out), w')
       /\ alloc.SeededString limit size charset seed w = (Returns out, w')
       /\ alloc.SeededBytesWithContext limit context.Background size charset seed w
          = (Returns (slice_of out, None), w')
       /\ alloc.SeededStringWithContext limit context.Background size charset seed w
          = (Returns (out, None), w'))
    /\ (0 < size -> limit < size ->
        result (alloc.SeededBytes limit size charset seed w) = Panics MakeFailed
        /\ result (alloc.SeededString limit size charset seed w)
           = Panics MakeFailed
        /\ result (alloc.SeededBytesWithContext limit context.Background
                     size charset seed w) = Panics MakeFailed
        /\ result (alloc.SeededStringWithContext limit context.Background
                     size charset seed w) = Panics MakeFailed).
Proof.
  intros limit size charset seed w. split.
  - intros Hlimit.
    destruct (alloc_calls_within limit size charset seed w Hlimit)
      as (Hs & Hbc & Hsc).
    unfold context.Background.
    rewrite Hs, Hbc, Hsc, (alloc_SeededBytes_within limit size charset seed w Hlimit).
    destruct (seeded_calls_side_by_side size charset seed w)
      as (out & w' & _ & H).
    exists out, w'. exact H.
  - intros Hpos Hbeyond.
    exact (alloc_SeededBytes_beyond limit size charset seed w Hpos Hbeyond).
Qed.

Lemma seeded_context_variants_agree_on_live_context_witness :
  (exists out w',
      alloc.SeededBytes maxAlloc 10 Alphabet [42] (world_with [])
      = (Returns (slice_of out), w')
      /\ alloc.SeededString maxAlloc 10 Alphabet [42] (world_with [])
         = (Returns out, w')
      /\ alloc.SeededBytesWithContext maxAlloc context.Background 10 Alphabet [42]
           (world_with [])
         = (Returns (slice_of out, None), w')
      /\ alloc.SeededStringWithContext maxAlloc context.Background 10 Alphabet [42]
           (world_with [])
         = (Returns (out, None), w'))
  /\ result (alloc.SeededBytesWithContext maxAlloc context.Background (2 ^ 62)
               Alphabet [42] (world_with [])) = Panics MakeFailed.
Proof.
  split.
  - apply (proj1 (seeded_context_variants_agree_on_live_context
                    maxAlloc 10 Alphabet [42] (world_with []))).
    vm_compute. discriminate.
  - apply (proj2 (seeded_context_variants_agree_on_live_context
                    maxAlloc (2 ^ 62) Alphabet [42] (world_with []))).
    + vm_compute. reflexivity.
    + vm_compute. reflexivity.
Defined.

(* ================================================================= *)
(** ** The fuzz targets *)

Lemma found_iff (b : byte) (charset : gostring) :
  found b charset = true <-> In b charset.
Proof.
  induction charset as [| c rest IH]; simpl.
  - split; [discriminate | contradiction].
  - destruct (Byte.eqb b c) eqn:E.
    + apply Byte.byte_dec_bl in E. subst. tauto.
    + apply Byte.eqb_false in E. rewrite IH. split.
      * intros H. right. exact H.
      * intros [H | H]; [congruence | exact H].
Qed.

Lemma check_members_none (bytes : list byte) (charset : gostring) :
  Forall (fun c => In c charset) bytes -> check_members bytes charset = [].
Proof.
  induction 1 as [| b rest Hb _ IH]; simpl.
  - reflexivity.
  - apply found_iff in Hb. rewrite Hb, IH. reflexivity.
Qed.

Lemma bytes_equal_refl (a : list byte) : bytes_equal a a = true.
Proof.
  induction a as [| x a IH]; simpl; [reflexivity |].
  rewrite (Byte.byte_dec_lb (eq_refl x)), IH. reflexivity.
Qed.

(** X14. The target of [FuzzBytes] never reports a wrong length or a byte
    outside the charset: a run that comes to an end ends without a complaint
    or in [t.Fatalf] (when [Bytes] returned an error).  It passes whenever
    the length of the charset is no multiple of 256 and the entropy source
    holds the at most 1000 bytes it asks for, and it panics with a division
    by zero on a positive size and a charset whose length is a positive
    multiple of 256. *)
Theorem FuzzBytes_never_complains :
  forall size charset w,
    (forall r,
        result (FuzzBytes size charset w) = Returns r ->
        r = Completed [] \/ r = Fatal)
    /\ (len charset mod 256 <> 0 -> 1000 <= len (entropy w) ->
        result (FuzzBytes size charset w) = Returns (Completed []))
    /\ (0 < size -> 0 < len charset -> len charset mod 256 = 0 ->
        1000 <= len (entropy w) ->
        result (FuzzBytes size charset w) = Panics DivideByZero).
Proof.
  intros size charset w. unfold FuzzBytes.
  destruct ((size <=? 0) || (len charset =? 0)) eqn:Eskip.
  - split; [| split].
    + intros r H. inversion H. left. reflexivity.
    + reflexivity.
    + intros Hs Hl _ _. apply orb_true_iff in Eskip.
      destruct Eskip as [E | E];
        [apply Z.leb_le in E | apply Z.eqb_eq in E]; lia.
  - apply orb_false_iff in Eskip. destruct Eskip as [Es El].
    apply Z.leb_gt in Es. apply Z.eqb_neq in El.
    set (n := if 1000 <? size then 1000 else size).
    assert (Hn : 0 < n <= 1000).
    { unfold n. destruct (1000 <? size) eqn:E;
        [apply Z.ltb_lt in E | apply Z.ltb_ge in E]; lia. }
    split; [| split].
    + intros r. unfold bind, Bytes, context.Background.
      destruct (BytesWithContext context.Live n charset w)
        as [[[b [e |]] | p] w1] eqn:Hcall; unfold result, ret; cbn [fst];
        intros H; inversion H.
      * right. reflexivity.
      * left. apply BytesWithContext_buffer in Hcall.
        destruct Hcall as (out & -> & Hlen & Hin). cbn [string_of_slice].
        rewrite Hlen, Z.eqb_refl, (check_members_none out charset Hin).
        reflexivity.
    + intros Hmod Hent. unfold bind, Bytes, context.Background.
      destruct (BytesWithContext_run n charset w) as (out & _ & Hrun); try lia.
      rewrite Hrun. pose proof (BytesWithContext_buffer _ _ _ _ _ _ Hrun) as Hb.
      destruct Hb as (out' & Heq & Hlen & Hin). injection Heq as <-.
      unfold result, ret. cbn [fst string_of_slice].
      rewrite Hlen, Z.eqb_refl, (check_members_none out charset Hin).
      reflexivity.
    + intros _ Hpos Hmod Hent. unfold bind, Bytes, context.Background.
      pose proof (BytesWithContext_zero_modulus n charset w
                    ltac:(lia) Hpos Hmod ltac:(lia)) as Hz.
      unfold result in *.
      destruct (BytesWithContext context.Live n charset w) as [[x | p] w1];
        cbn [fst] in *; [discriminate | inversion Hz; reflexivity].
Qed.

Lemma FuzzBytes_never_complains_witness :
  result (FuzzBytes 100 Symbols (world_with (repeat x2a 1000)))
  = Returns (Completed [])
  /\ result (FuzzBytes 5 charset256 (world_with (repeat x2a 1000)))
     = Panics DivideByZero.
Proof.
  split.
  - apply (proj1 (proj2 (FuzzBytes_never_complains
                           100 Symbols (world_with (repeat x2a 1000))))).
    + vm_compute. discriminate.
    + vm_compute. discriminate.
  - apply (proj2 (proj2 (FuzzBytes_never_complains
                           5 charset256 (world_with (repeat x2a 1000))))).
    + lia.
    + vm_compute. reflexivity.
    + vm_compute. reflexivity.
    + vm_compute. discriminate.
Defined.

(** X15. The target of [FuzzSeededDeterminism] passes on every input: for
    every size, charset and seed, in every world, it runs to its end without
    a complaint about a length or about two calls that differ. *)
Theorem FuzzSeededDeterminism_passes {src : mrand.Source} :
  forall size charset seed w,
    result (FuzzSeededDeterminism size charset seed w) = Returns (Completed []).
Proof.
  intros size charset seed w. unfold FuzzSeededDeterminism.
  destruct ((size <=? 0) || (len charset =? 0)) eqn:Eskip; [reflexivity |].
  apply orb_false_iff in Eskip. destruct Eskip as [Es El].
  apply Z.leb_gt in Es. apply Z.eqb_neq in El.
  assert (Hne : charset <> []) by (rewrite <- len_zero_iff; exact El).
  set (n := if 1000 <? size then 1000 else size).
  assert (Hn : 0 < n).
  { unfold n. destruct (1000 <? size); lia. }
  destruct (seeded_output_valid n charset seed Hn Hne) as (out & Hout & Hlen & _).
  assert (Hcall : forall w0,
             exists w1,
               SeededBytes n charset [seed] w0 = (Returns (slice_of out), w1)
               /\ SeededString n charset [seed] w0 = (Returns out, w1)).
  { intros w0.
    destruct (seeded_calls_side_by_side n charset [seed] w0)
      as (out' & w1 & Hout' & Hb & Hs & _).
    cbn [seed_value] in Hout'. rewrite Hout in Hout'. injection Hout' as <-.
    exists w1. split; assumption. }
  unfold bind.
  destruct (Hcall w) as (w1 & H1 & _). rewrite H1.
  destruct (Hcall w1) as (w2 & H2 & _). rewrite H2.
  destruct (Hcall w2) as (w3 & _ & H3). rewrite H3.
  destruct (Hcall w3) as (w4 & _ & H4). rewrite H4.
  unfold result, ret. cbn [fst string_of_slice].
  rewrite Hlen, Z.eqb_refl, bytes_equal_refl. reflexivity.
Qed.

Lemma FuzzSeededDeterminism_passes_witness :
  result (FuzzSeededDeterminism 30 Symbols 9999 (world_with []))
  = Returns (Completed []).
Proof.
  exact (FuzzSeededDeterminism_passes 30 Symbols 9999 (world_with [])).
Defined.

(* ================================================================= *)
(** ** Seeded outputs of different sizes *)

Section SeededPrefix.

Context {src : mrand.Source}.



End SeededPrefix.


